(** * ToyShell: the UART shell of ToyShell.h / ToyShell.cpp

    A shallow embedding of the shell's read / split / dispatch loop
    ([Shell::main]), of its two constructors and of the start / stop protocol
    ([Shell::begin], [Shell::end]), followed by the properties checked on it.

    Conventions.  Bytes are [ascii]; the line buffer [input] is a list of
    bytes of length [SHELL_LINE_MAX]; a [char *] into the buffer is the
    offset of the byte it points to; the slots of [argv] hold such offsets.
    A [Stream] is the state of the serial port the shell talks to. *)

From Stdlib Require Import ZArith Ascii String Lia.
From stdpp Require Import base tactics option list sorting pretty.

Local Open Scope nat_scope.

(** ** Constants of ToyShell.h *)

Definition SHELL_LINE_MAX : nat := 2048.
Definition SHELL_ARG_MAX : nat := 32.

Definition NUL : ascii := "000"%char.
Definition LF : ascii := "010"%char.
Definition SP : ascii := " "%char.

(** A string literal of the source, as the bytes it stands for. *)
Definition lit (s : string) : list ascii := list_ascii_of_string s.

(** ** The C library functions the shell calls *)

(** Offset of the first occurrence of [c] in [l]. *)
Fixpoint find_byte (c : ascii) (l : list ascii) : option nat :=
  match l with
  | [] => None
  | x :: r => if decide (x = c) then Some 0 else S <$> find_byte c r
  end.

(** [memchr(buf + s, c, n)]: the first [c] among the [n] bytes from offset
    [s] on, as an offset into [buf]. *)
Definition memchr (buf : list ascii) (s : nat) (c : ascii) (n : nat) : option nat :=
  (λ k, s + k) <$> find_byte c (take n (drop s buf)).

(** The bytes of [l] before its first NUL. *)
Fixpoint until_nul (l : list ascii) : list ascii :=
  match l with
  | [] => []
  | x :: r => if decide (x = NUL) then [] else x :: until_nul r
  end.

(** The C string that starts at offset [s] of [buf] (what [%s] prints, what
    a handler reads through [argv[k]]).  Every call below is made with a NUL
    stored at or after [s]; were there none, the model stops at the end of
    the array. *)
Definition cstr (buf : list ascii) (s : nat) : list ascii := until_nul (drop s buf).

Definition strlen (buf : list ascii) (s : nat) : nat := length (cstr buf s).

Definition uchar (c : ascii) : Z := Z.of_N (N_of_ascii c).

(** [strcmp]: the difference of the first two bytes (as unsigned char) that
    differ, the end of a string counting as its NUL terminator. *)
Fixpoint strcmp (a b : list ascii) : Z :=
  match a, b with
  | [], [] => 0
  | [], y :: _ => (0 - uchar y)%Z
  | x :: _, [] => (uchar x - 0)%Z
  | x :: a', y :: b' =>
      if decide (x = y) then (if decide (x = NUL) then 0%Z else strcmp a' b')
      else (uchar x - uchar y)%Z
  end.

(** Store [chunk] into [buf] from offset [off] on. *)
Definition write_at (buf : list ascii) (off : nat) (chunk : list ascii) : list ascii :=
  take off buf ++ chunk ++ drop (off + length chunk) buf.

(** [memmove(buf + dst, buf + src, n)]. *)
Definition memmove (buf : list ascii) (dst src n : nat) : list ascii :=
  write_at buf dst (take n (drop src buf)).

(** [bsearch(key, base, nmemb, size, compar)] of the C library: the classic
    halving search, [compar key] being passed as [cmp].  The result carries
    the number of calls of [cmp].  [None] stands for an undefined run (an
    element outside the array, or a comparison that is itself undefined). *)
Fixpoint bsearch_loop {E} (fuel : nat) (cmp : E → option Z) (base : list E)
    (l u : nat) (ncmp : nat) : option (option E * nat) :=
  if decide (l < u) then
    match fuel with
    | 0 => None
    | S fuel' =>
        let idx := (l + u) `div` 2 in
        p ← base !! idx;
        comparison ← cmp p;
        if decide (comparison < 0)%Z then bsearch_loop fuel' cmp base l idx (S ncmp)
        else if decide (0 < comparison)%Z then bsearch_loop fuel' cmp base (S idx) u (S ncmp)
        else Some (Some p, S ncmp)
    end
  else Some (None, ncmp).

Definition bsearch_counted {E} (cmp : E → option Z) (base : list E) (nmemb : nat)
    : option (option E * nat) :=
  bsearch_loop nmemb cmp base 0 nmemb 0.

Definition bsearch {E} (cmp : E → option Z) (base : list E) (nmemb : nat)
    : option (option E) :=
  fst <$> bsearch_counted cmp base nmemb.

(** ** The transport: an Arduino [Stream] *)

(** [rx] is what the peer will send, one element per burst that arrives
    within one timeout window (an empty burst is a window in which nothing
    arrives); [tx] is everything written so far. *)
Record Stream := mkStream {
  rx : list (list ascii);
  tx : list ascii;
  timeout : nat
}.

(** [stream.readBytes(buffer, length)]: the bytes read, at most [length] of
    them, and the stream afterwards. *)
Definition readBytes (io : Stream) (len : nat) : list ascii * Stream :=
  match rx io with
  | [] => ([], io)
  | burst :: later =>
      (take len burst,
       mkStream (match drop len burst with [] => later | rest => rest :: later end)
                (tx io) (timeout io))
  end.

Definition print (s : list ascii) (io : Stream) : Stream :=
  mkStream (rx io) (tx io ++ s) (timeout io).

Definition setTimeout (ms : nat) (io : Stream) : Stream :=
  mkStream (rx io) (tx io) ms.

(** ** Commands and the shell object *)

(** The type of [Command::entry], a function of [argc], [argv] and the
    serial port that returns an [int]: a
    handler sees the first [argc] strings of [argv] (it cannot write through
    them) and the port, which it may read from and write to. *)
Definition Handler : Type := nat → list (list ascii) → Stream → Z * Stream.

(** [struct Command]; [None] is a null pointer. *)
Record Command := mkCommand {
  name : option (list ascii);
  entry : option Handler
}.

(** [class Shell].  [stream] points to a port (the number of the port). *)
Record Shell := mkShell {
  stream : option nat;
  commands : list Command;
  cmd_count : nat;
  f_begin : bool;
  f_end : bool;
  input : list ascii;
  argv : list nat
}.

(** The constructor [Shell(commands, count)].  The two arrays are not
    initialised by the constructor; they are taken zero-filled, as in an
    object with static storage. *)
Definition Shell_new (cmds : list Command) (count : nat) : Shell :=
  mkShell None cmds count false false
          (replicate SHELL_LINE_MAX NUL) (replicate SHELL_ARG_MAX 0).

(** The loop of the constructor [Shell(commands)]:
    [while (commands[cmd_count].name) cmd_count += 1;], started at the entry
    [cmds] begins with.  [None]: the scan left the array without meeting a
    null name. *)
Fixpoint count_commands (cmds : list Command) : option nat :=
  match cmds with
  | [] => None
  | c :: rest =>
      match name c with
      | None => Some 0
      | Some _ => S <$> count_commands rest
      end
  end.

(** The constructor [Shell(commands)]. *)
Definition Shell_of_table (cmds : list Command) : option Shell :=
  count ← count_commands cmds;
  Some (Shell_new cmds count).

(** ** ToyShell.cpp *)

(** [static void prompt(stream)]. *)
Definition prompt (io : Stream) : Stream :=
  print (lit "shell> ") (setTimeout 20 io).

(** [static int cmp(k, e)]: [strcmp(key, entry->name)], undefined on a null
    name. *)
Definition cmp (key : list ascii) (e : Command) : option Z :=
  strcmp key <$> name e.

Definition too_many_arguments : list ascii :=
  lit "Too many arguments; discarding arguments after #"
    ++ lit (pretty (SHELL_ARG_MAX - 1)) ++ [LF].

Definition line_too_long : list ascii :=
  LF :: lit "shell: Command line too long; discarding" ++ [LF].

Definition no_such_command (arg0 : list ascii) : list ascii :=
  lit "shell: No such command: " ++ arg0 ++ [LF].

(** State of the [for] loop of [Shell::main] that splits the line. *)
Record Split := mkSplit {
  s_input : list ascii;
  s_argv : list nat;
  s_argc : nat;
  s_io : Stream
}.

(** The loop [for (i = input; i < end; i += strlen(i) + 1) { ... }].  [i]
    grows by at least one per round, so [end_ - i] rounds are enough: the
    loop is entered with [fuel = end_]. *)
Fixpoint split_loop (fuel : nat) (end_ i : nat) (st : Split) : Split :=
  match fuel with
  | 0 => st
  | S fuel' =>
      if decide (i < end_) then
        if decide (s_argc st < SHELL_ARG_MAX) then
          let argv1 := <[s_argc st := i]> (s_argv st) in
          let argc1 := s_argc st + 1 in
          let input1 :=
            match memchr (s_input st) i SP (end_ - i) with
            | Some space => <[space := NUL]> (s_input st)
            | None => s_input st
            end in
          split_loop fuel' end_ (i + strlen input1 i + 1)
                     (mkSplit input1 argv1 argc1 (s_io st))
        else
          mkSplit (s_input st) (s_argv st) (s_argc st)
                  (print too_many_arguments (s_io st))
      else st
  end.

(** The block under [// split arguments]. *)
Definition split_arguments (buf : list ascii) (args : list nat) (end_ : nat)
    (io : Stream) : Split :=
  let buf1 := <[end_ := NUL]> buf in
  let io1 := print (cstr buf1 0 ++ [LF]) io in
  split_loop end_ end_ 0 (mkSplit buf1 args 0 io1).

(** The strings a handler finds in [argv[0 .. argc-1]]. *)
Definition arg_strings (st : Split) : list (list ascii) :=
  cstr (s_input st) <$> take (s_argc st) (s_argv st).

(** The block under [// execute command], entered with [argc > 0]. *)
Definition execute_command (sh : Shell) (st : Split) : option Stream :=
  arg0 ← head (arg_strings st);
  found ← bsearch (cmp arg0) (commands sh) (cmd_count sh);
  match found with
  | Some c =>
      h ← entry c;
      Some (snd (h (s_argc st) (arg_strings st) (s_io st)))
  | None => Some (print (no_such_command arg0) (s_io st))
  end.

(** The shell with its two arrays as the loop has written them. *)
Definition set_arrays (buf : list ascii) (args : list nat) (sh : Shell) : Shell :=
  mkShell (stream sh) (commands sh) (cmd_count sh) (f_begin sh) (f_end sh) buf args.

(** One round of [while (f_end == 0) { ... }] in [Shell::main], run with the
    write cursor at offset [bufhead] on the port in state [io]: the shell
    (its [input] and [argv] arrays written), the cursor and the port at the
    end of the round. *)
Definition loop_body (sh : Shell) (bufhead : nat) (io : Stream)
    : option (Shell * nat * Stream) :=
  let with_arrays buf args := set_arrays buf args sh in
  (* read input *)
  let '(bytes, io) := readBytes io (SHELL_LINE_MAX - bufhead) in
  let count := length bytes in
  let buf := write_at (input sh) bufhead bytes in
  match memchr buf bufhead LF count with
  | None =>
      let bufhead := bufhead + count in
      (* discard buffer if overrun *)
      if decide (SHELL_LINE_MAX ≤ bufhead) then
        Some (with_arrays buf (argv sh), 0, prompt (print line_too_long io))
      else
        (* continue to wait for input *)
        Some (with_arrays buf (argv sh), bufhead, io)
  | Some end_ =>
      (* split arguments *)
      let st := split_arguments buf (argv sh) end_ io in
      (* execute command *)
      if decide (s_argc st = 0) then
        Some (with_arrays (s_input st) (s_argv st), bufhead, s_io st)
      else
        io ← execute_command sh st;
        (* prepare for next command *)
        let bufhead := bufhead + count in
        let count := bufhead - (end_ + 1) in
        let buf :=
          if decide (0 < count) then memmove (s_input st) 0 (end_ + 1) count
          else s_input st in
        Some (with_arrays buf (s_argv st), count, prompt io)
  end.

(** [n] rounds of the loop, for as long as [f_end] is not set. *)
Fixpoint rounds (n : nat) (sh : Shell) (bufhead : nat) (io : Stream)
    : option (Shell * nat * Stream) :=
  match n with
  | 0 => Some (sh, bufhead, io)
  | S n' =>
      if f_end sh then Some (sh, bufhead, io)
      else
        '(sh1, bufhead1, io1) ← loop_body sh bufhead io;
        rounds n' sh1 bufhead1 io1
  end.

(** ** Starting and stopping: the caller's task and the shell's tasks *)

(** Where a task created by [xTaskCreate(Shell::start, ...)] stands in
    [Shell::main]. *)
Inductive main_pc : Type :=
  | AtEntry                  (* created; [atomic_store(&f_begin, 1)] not yet run *)
  | AtPrompt                 (* before the first call of [prompt] *)
  | AtWhile (bufhead : nat)  (* at the test of [while (f_end == 0)] *)
  | AtClearEnd               (* before [atomic_store(&f_end, 0)] *)
  | AtClearBegin             (* before [atomic_store(&f_begin, 0)] *)
  | AtDelete                 (* before [vTaskDelete(NULL)] *)
  | Deleted.

(** A call the sketch makes on the shell. *)
Inductive call : Type :=
  | CallBegin (port : nat)
  | CallEnd.

(** Where the calling task stands in the call at the head of its list. *)
Inductive caller_pc : Type :=
  | BeforeCall
  | BeginTested   (* [begin]: [!f_begin] held, before [this->stream = &stream] *)
  | BeginStored   (* [begin]: before [xTaskCreate] *)
  | EndWaiting.   (* [end]: [f_end] stored, at [while (f_begin != 0)] *)

Record World := mkWorld {
  shell : Shell;
  ports : list Stream;
  tasks : list main_pc;
  todo : list call;
  caller : caller_pc
}.

Definition set_stream (p : option nat) (sh : Shell) : Shell :=
  mkShell p (commands sh) (cmd_count sh) (f_begin sh) (f_end sh) (input sh) (argv sh).

Definition set_f_begin (b : bool) (sh : Shell) : Shell :=
  mkShell (stream sh) (commands sh) (cmd_count sh) b (f_end sh) (input sh) (argv sh).

Definition set_f_end (b : bool) (sh : Shell) : Shell :=
  mkShell (stream sh) (commands sh) (cmd_count sh) (f_begin sh) b (input sh) (argv sh).

(** [Shell::begin(stream)], one atomic step at a time; [p] is the port
    passed and [rest] the calls the sketch makes afterwards. *)
Definition Shell_begin (p : nat) (rest : list call) (w : World) : option World :=
  match caller w with
  | BeforeCall =>
      (* if (!f_begin) *)
      if f_begin (shell w) then
        Some (mkWorld (shell w) (ports w) (tasks w) rest BeforeCall)
      else
        Some (mkWorld (shell w) (ports w) (tasks w) (todo w) BeginTested)
  | BeginTested =>
      (* this->stream = &stream; *)
      Some (mkWorld (set_stream (Some p) (shell w)) (ports w) (tasks w) (todo w) BeginStored)
  | BeginStored =>
      (* xTaskCreate(Shell::start, "shell", 4096, this, 1, nullptr); *)
      Some (mkWorld (shell w) (ports w) (tasks w ++ [AtEntry]) rest BeforeCall)
  | EndWaiting => None
  end.

(** [Shell::end()], one atomic step at a time. *)
Definition Shell_end (rest : list call) (w : World) : option World :=
  match caller w with
  | BeforeCall =>
      (* atomic_store(&f_end, 1); *)
      Some (mkWorld (set_f_end true (shell w)) (ports w) (tasks w) (todo w) EndWaiting)
  | EndWaiting =>
      (* while (f_begin != 0) taskYIELD(); *)
      if f_begin (shell w) then Some w
      else Some (mkWorld (shell w) (ports w) (tasks w) rest BeforeCall)
  | BeginTested | BeginStored => None
  end.

(** One step of the calling task, in the call at the head of its list. *)
Definition caller_step (w : World) : option World :=
  match todo w with
  | [] => None
  | CallBegin p :: rest => Shell_begin p rest w
  | CallEnd :: rest => Shell_end rest w
  end.

(** [Shell::main()] run by the [k]-th task created, one step at a time from
    [pc]: a store to a flag, a call of [prompt], the loop test followed by
    one round of the loop, or the deletion of the task. *)
Definition Shell_main (k : nat) (pc : main_pc) (w : World) : option World :=
  let at_ pc' sh ps := Some (mkWorld sh ps (<[k := pc']> (tasks w)) (todo w) (caller w)) in
  match pc with
  | AtEntry => at_ AtPrompt (set_f_begin true (shell w)) (ports w)
  | AtPrompt =>
      p ← stream (shell w);
      io ← ports w !! p;
      at_ (AtWhile 0) (shell w) (<[p := prompt io]> (ports w))
  | AtWhile bufhead =>
      if f_end (shell w) then at_ AtClearEnd (shell w) (ports w)
      else
        p ← stream (shell w);
        io ← ports w !! p;
        '(sh, bufhead', io') ← loop_body (shell w) bufhead io;
        at_ (AtWhile bufhead') sh (<[p := io']> (ports w))
  | AtClearEnd => at_ AtClearBegin (set_f_end false (shell w)) (ports w)
  | AtClearBegin => at_ AtDelete (set_f_begin false (shell w)) (ports w)
  | AtDelete => at_ Deleted (shell w) (ports w)
  | Deleted => None
  end.

(** [Shell::start(parameters)]: the entry point of a task, which runs
    [main] on the shell; one step of the [k]-th task created. *)
Definition task_step (k : nat) (w : World) : option World :=
  pc ← tasks w !! k;
  Shell_main k pc w.

Inductive thread : Type :=
  | Caller
  | Task (k : nat).

Definition step (t : thread) (w : World) : option World :=
  match t with
  | Caller => caller_step w
  | Task k => task_step k w
  end.

(** The run in which the scheduler gives the processor to the threads of
    [schedule], in that order, for one step each. *)
Fixpoint run (schedule : list thread) (w : World) : option World :=
  match schedule with
  | [] => Some w
  | t :: later => w' ← step t w; run later w'
  end.

(** ** Notions the properties are stated with *)

(** A C string proper: no NUL among its bytes. *)
Definition cstring (s : list ascii) : Prop := NUL ∉ s.

(** The tokens of a line by the rule of the splitting loop, were it never
    stopped by [SHELL_ARG_MAX]: a token starts at the first byte of the line
    and after every space that is not the last byte of the line; it ends
    before the next space, or with the line. *)
Fixpoint words (line : list ascii) : list (list ascii) :=
  match line with
  | [] => []
  | c :: rest =>
      if decide (c = SP) then [] :: words rest
      else
        match words rest with
        | [] => [[c]]
        | w :: ws => (c :: w) :: ws
        end
  end.

(** The tokens joined again, [sep] between two neighbours. *)
Fixpoint join (sep : ascii) (ws : list (list ascii)) : list ascii :=
  match ws with
  | [] => []
  | w :: ws' =>
      match ws' with
      | [] => w
      | _ :: _ => w ++ sep :: join sep ws'
      end
  end.

(** The tokens laid out one after the other, each with its terminator. *)
Definition terminated (ws : list (list ascii)) : list ascii :=
  mjoin ((λ w, w ++ [NUL]) <$> ws).

(** The line after [k] rounds of the splitting loop: the space that ends
    each of the first [k] tokens has become a NUL. *)
Fixpoint mark (k : nat) (line : list ascii) : list ascii :=
  match k with
  | 0 => line
  | S k' =>
      match find_byte SP line with
      | Some q => take q line ++ NUL :: mark k' (drop (S q) line)
      | None => line
      end
  end.

(** The line without its last byte when that byte is a space. *)
Definition chomp_space (line : list ascii) : list ascii :=
  match last line with
  | Some c => if decide (c = SP) then take (length line - 1) line else line
  | None => line
  end.

(** The commands the shell looks up: the first [cmd_count] of the table. *)
Definition table (sh : Shell) : list Command :=
  take (cmd_count sh) (commands sh).

(** Byte-wise dictionary order: [a] is a proper prefix of [b], or at the
    first place where the two differ the byte of [a] is the smaller one. *)
Fixpoint bytes_lt (a b : list ascii) : Prop :=
  match a, b with
  | _, [] => False
  | [], _ :: _ => True
  | x :: a', y :: b' => (uchar x < uchar y)%Z ∨ (x = y ∧ bytes_lt a' b')
  end.

(** The order of two names as [cmp] sees it. *)
Definition name_lt (a b : list ascii) : Prop := (strcmp a b < 0)%Z.

(** The table holds [cmd_count] commands, each with a name that is a C
    string, in strictly ascending byte-wise dictionary order of the names. *)
Definition sorted_table (sh : Shell) : Prop :=
  ∃ names : list (list ascii),
    name <$> table sh = Some <$> names
    ∧ length names = cmd_count sh
    ∧ Forall cstring names
    ∧ StronglySorted bytes_lt names.

(** Every command of the table has a name and a handler. *)
Definition callable_table (sh : Shell) : Prop :=
  cmd_count sh ≤ length (commands sh)
  ∧ Forall (λ c, (is_Some (name c)) ∧ (is_Some (entry c))) (table sh).

(** ** A sketch that uses the shell: two commands, served on serial ports *)

Definition cmdEcho : Handler :=
  λ argc args io, (0%Z, print (join SP (drop 1 args) ++ [LF]) io).

Definition cmdHelp : Handler :=
  λ argc args io, (0%Z, print (lit "commands: echo help" ++ [LF]) io).

Definition sketch_commands : list Command :=
  [ mkCommand (Some (lit "echo")) (Some cmdEcho);
    mkCommand (Some (lit "help")) (Some cmdHelp);
    mkCommand None None ].

Definition sketch_shell : Shell := Shell_new sketch_commands 2.

(** A port on which the peer sends [bursts], nothing written yet. *)
Definition serial (bursts : list (list ascii)) : Stream := mkStream bursts [] 0.

(** What the block under [// split arguments] makes of [line] when the line
    and its newline are read into the buffer of a shell just constructed. *)
Definition split_line (line : list ascii) : Split :=
  split_arguments (write_at (input sketch_shell) 0 (line ++ [LF]))
                  (argv sketch_shell) (length line) (serial []).

(** A line of forty tokens. *)
Definition forty_tokens : list ascii := join SP (replicate 40 (lit "t")).

(** A line with a NUL byte in its first token: "a", NUL, "b", then 32
    times a space and "t". *)
Definition nul_line : list ascii :=
  lit "a" ++ NUL :: lit "b" ++ mjoin (replicate 32 (lit " t")).

(** The sketch about to make [calls] on its shell, no task created yet. *)
Definition sketch_world (calls : list call) (serials : list Stream) : World :=
  mkWorld sketch_shell serials [] calls BeforeCall.

(** What is seen of the loop from outside: the cursor, what the peer has
    still to send, and what was written to the port. *)
Definition observe (r : option (Shell * nat * Stream))
    : option (nat * list (list ascii) * list ascii) :=
  (λ '(_, bufhead, io), (bufhead, rx io, tx io)) <$> r.

(** What is seen of a run of the tasks: the two flags, the port recorded, the
    tasks, the calls the sketch has still to make (or to finish), and what
    the ports have still to deliver and have received. *)
Definition lifecycle (r : option World)
    : option (bool * bool * option nat * list main_pc * list call
              * list (list (list ascii) * list ascii)) :=
  (λ w, (f_begin (shell w), f_end (shell w), stream (shell w), tasks w, todo w,
         (λ io, (rx io, tx io)) <$> ports w)) <$> r.

(** The number of comparisons a halving search among [d] elements may need:
    one more than the binary logarithm of [d]. *)
Definition halvings (d : nat) : nat :=
  match d with
  | 0 => 0
  | S _ => S (Nat.log2 d)
  end.

(** ** Notions for the further properties *)

(** In [buf] an argument string starts at offset [o], inside the line that
    ends at [end_]: it holds neither a NUL nor a space, and its terminator
    stands before [bound] and not after [end_]. *)
Definition token_at (buf : list ascii) (end_ bound o : nat) : Prop :=
  ∃ pre w post,
    buf = pre ++ w ++ NUL :: post
    ∧ length pre = o ∧ o < end_ ∧ o + length w ≤ end_ ∧ o + length w < bound
    ∧ (NUL ∉ w) ∧ (SP ∉ w).

(** Every slot of [argv] below [argc] holds the offset of an argument string
    that ends before [i]. *)
Definition tokens_so_far (end_ i : nat) (st : Split) : Prop :=
  ∀ k, k < s_argc st →
    ∃ o, s_argv st !! k = Some o ∧ token_at (s_input st) end_ i o.

Definition is_begin (c : call) : Prop :=
  match c with
  | CallBegin _ => True
  | CallEnd => False
  end.

(** The shell has one task, which has stored [f_begin] and not left the
    loop; nobody asks it to stop; the sketch is between two calls and has
    only calls of [begin] left; port [p] is recorded. *)
Definition started (p : nat) (w : World) : Prop :=
  f_begin (shell w) = true ∧ f_end (shell w) = false
  ∧ stream (shell w) = Some p
  ∧ caller w = BeforeCall ∧ Forall is_begin (todo w)
  ∧ ∃ pc, tasks w = [pc] ∧ (pc = AtPrompt ∨ ∃ bufhead, pc = AtWhile bufhead).

(** The states of a shell whose one task was in the loop when the sketch
    made its last call, [end]: before the store to [f_end], while [end]
    waits, and after [end] has returned. *)
Definition stopping (w : World) : Prop :=
  ∃ pc, tasks w = [pc] ∧
    let b := f_begin (shell w) in
    let e := f_end (shell w) in
    (todo w = [CallEnd] ∧ caller w = BeforeCall
       ∧ b = true ∧ e = false ∧ (∃ bufhead, pc = AtWhile bufhead))
    ∨ (todo w = [CallEnd] ∧ caller w = EndWaiting
       ∧ ((b = true ∧ e = true ∧ ((∃ bufhead, pc = AtWhile bufhead) ∨ pc = AtClearEnd))
          ∨ (b = true ∧ e = false ∧ pc = AtClearBegin)
          ∨ (b = false ∧ e = false ∧ (pc = AtDelete ∨ pc = Deleted))))
    ∨ (todo w = [] ∧ caller w = BeforeCall
       ∧ b = false ∧ e = false ∧ (pc = AtDelete ∨ pc = Deleted)).

(** ** The C library functions: basic facts *)

Lemma find_byte_Some c l k :
  find_byte c l = Some k ↔ ∃ a b, l = a ++ c :: b ∧ (c ∉ a) ∧ length a = k.
Proof.
  revert k. induction l as [|x l IH]; intros k; simpl.
  - split; [done|]. intros (a & b & H & _). by destruct a.
  - destruct (decide (x = c)) as [->|Hx].
    + split.
      * intros [= <-]. exists [], l. split_and!; [done| |done]. apply not_elem_of_nil.
      * intros (a & b & H & Ha & <-). destruct a as [|y a]; [done|].
        simplify_eq/=. exfalso. apply Ha. left.
    + destruct (find_byte c l) as [j|] eqn:E; simpl.
      * split.
        -- intros [= <-]. destruct (proj1 (IH j) eq_refl) as (a & b & -> & Ha & <-).
           exists (x :: a), b. split_and!; [done| |done].
           intros [?|?]%elem_of_cons; [congruence|done].
        -- intros (a & b & H & Ha & <-). destruct a as [|y a]; simplify_eq/=.
           f_equal. assert (Some j = Some (length a)) as [= ->]; [|done].
           apply IH. exists a, b. split_and!; [done| |done].
           intros ?. apply Ha. by right.
      * split; [done|]. intros (a & b & H & Ha & <-).
        destruct a as [|y a]; simplify_eq/=.
        assert (None = Some (length a)); [|done].
        apply IH. exists a, b. split_and!; [done| |done].
        intros ?. apply Ha. by right.
Qed.

Lemma find_byte_None c l : find_byte c l = None ↔ c ∉ l.
Proof.
  induction l as [|x l IH]; simpl.
  - split; [intros _; apply not_elem_of_nil|done].
  - destruct (decide (x = c)) as [->|Hx].
    + split; [done|]. intros H. exfalso. apply H. left.
    + destruct (find_byte c l) as [j|]; simpl.
      * split; [done|]. intros H. exfalso.
        assert (c ∉ l) as Hl by (intros ?; apply H; by right).
        by apply IH in Hl.
      * split; [|done]. intros _ [?|?]%elem_of_cons; [congruence|].
        by apply (proj1 IH).
Qed.

Lemma find_byte_app c a b : c ∉ a → find_byte c (a ++ c :: b) = Some (length a).
Proof. intros. apply find_byte_Some. by exists a, b. Qed.

Lemma find_byte_lt c l k : find_byte c l = Some k → k < length l.
Proof.
  intros (a & b & -> & _ & <-)%find_byte_Some. rewrite length_app. simpl. lia.
Qed.

Lemma memchr_Some buf s c n e :
  memchr buf s c n = Some e → s ≤ e < s + n ∧ e < length buf ∧ buf !! e = Some c.
Proof.
  unfold memchr. intros H.
  destruct (find_byte c (take n (drop s buf))) as [k|] eqn:E; simplify_eq/=.
  pose proof (find_byte_lt _ _ _ E) as Hk.
  rewrite length_take, length_drop in Hk.
  apply find_byte_Some in E as (a & b & E & _ & <-).
  split_and!; [lia..|].
  assert (take n (drop s buf) !! length a = Some c) as Hl.
  { rewrite E. by rewrite list_lookup_middle. }
  rewrite lookup_take_lt in Hl by lia. by rewrite lookup_drop in Hl.
Qed.

Lemma until_nul_app w x : cstring w → until_nul (w ++ NUL :: x) = w.
Proof.
  unfold cstring. induction w as [|c w IH]; simpl; intros H.
  - done.
  - rewrite decide_False; [|intros ->; apply H; left].
    f_equal. apply IH. intros ?. apply H. by right.
Qed.

Lemma until_nul_cstring l : cstring (until_nul l).
Proof.
  unfold cstring. induction l as [|c l IH]; simpl; [apply not_elem_of_nil|].
  destruct (decide (c = NUL)); [apply not_elem_of_nil|].
  intros [?|?]%elem_of_cons; [congruence|done].
Qed.

Lemma cstr_at pre w x : cstring w → cstr (pre ++ w ++ NUL :: x) (length pre) = w.
Proof. intros. unfold cstr. rewrite drop_app_length. by apply until_nul_app. Qed.

Lemma cstr_cstring buf s : cstring (cstr buf s).
Proof. apply until_nul_cstring. Qed.

Lemma length_write_at buf off chunk :
  off + length chunk ≤ length buf → length (write_at buf off chunk) = length buf.
Proof.
  intros. unfold write_at. rewrite !length_app, length_take, length_drop. lia.
Qed.

Lemma drop_write_at buf off chunk :
  off ≤ length buf →
  drop off (write_at buf off chunk) = chunk ++ drop (off + length chunk) buf.
Proof.
  intros. unfold write_at. rewrite drop_app_length'; [done|].
  rewrite length_take. lia.
Qed.

Lemma readBytes_length io len : length (readBytes io len).1 ≤ len.
Proof.
  unfold readBytes. destruct (rx io); simpl; [lia|]. rewrite length_take. lia.
Qed.

Lemma readBytes_tx io len : tx (readBytes io len).2 = tx io.
Proof. unfold readBytes. by destruct (rx io). Qed.

(** ** The splitting loop *)

Lemma words_app_space w rest : SP ∉ w → words (w ++ SP :: rest) = w :: words rest.
Proof.
  induction w as [|c w IH]; intros H.
  - done.
  - change (words ((c :: w) ++ SP :: rest))
      with (if decide (c = SP) then [] :: words (w ++ SP :: rest)
            else match words (w ++ SP :: rest) with
                 | [] => [[c]]
                 | w0 :: ws => (c :: w0) :: ws
                 end).
    rewrite decide_False; [|intros ->; apply H; left].
    rewrite IH; [done|]. intros ?. apply H. by right.
Qed.

Lemma words_no_space l : SP ∉ l → l ≠ [] → words l = [l].
Proof.
  induction l as [|c l IH]; intros H Hne; [done|].
  change (words (c :: l))
    with (if decide (c = SP) then [] :: words l
          else match words l with
               | [] => [[c]]
               | w0 :: ws => (c :: w0) :: ws
               end).
  rewrite decide_False; [|intros ->; apply H; left].
  destruct l as [|d l]; [done|].
  rewrite IH; [done| |done]. intros ?. apply H. by right.
Qed.

Lemma words_nonempty l : l ≠ [] → 0 < length (words l).
Proof.
  destruct l as [|c l]; [done|]. intros _. simpl.
  destruct (decide (c = SP)); simpl; [lia|].
  destruct (words l); simpl; lia.
Qed.

Lemma split_loop_unfold fuel end_ i st :
  split_loop (S fuel) end_ i st =
    if decide (i < end_) then
      if decide (s_argc st < SHELL_ARG_MAX) then
        let argv1 := <[s_argc st := i]> (s_argv st) in
        let argc1 := s_argc st + 1 in
        let input1 :=
          match memchr (s_input st) i SP (end_ - i) with
          | Some space => <[space := NUL]> (s_input st)
          | None => s_input st
          end in
        split_loop fuel end_ (i + strlen input1 i + 1)
                   (mkSplit input1 argv1 argc1 (s_io st))
      else
        mkSplit (s_input st) (s_argv st) (s_argc st)
                (print too_many_arguments (s_io st))
    else st.
Proof. done. Qed.

Lemma split_loop_done fuel end_ i st : end_ ≤ i → split_loop fuel end_ i st = st.
Proof.
  intros. destruct fuel; [done|]. rewrite split_loop_unfold.
  rewrite decide_False; [done|lia].
Qed.

Lemma memchr_middle pre l post c :
  memchr (pre ++ l ++ post) (length pre) c (length l) =
    (λ k, length pre + k) <$> find_byte c l.
Proof.
  unfold memchr. rewrite drop_app_length. by rewrite take_app_length.
Qed.

Lemma insert_middle pre w (x y : ascii) rest :
  <[length pre + length w := y]> (pre ++ (w ++ x :: rest)) = pre ++ w ++ y :: rest.
Proof.
  rewrite insert_app_r. f_equal.
  replace (length w) with (length w + 0) by lia.
  by rewrite insert_app_r.
Qed.

Lemma take_take_le {A} (l : list A) n m : n ≤ m → take n (take m l) = take n l.
Proof. intros. rewrite take_take. f_equal. lia. Qed.

Lemma split_loop_words fuel : ∀ l pre post args argc io,
  cstring l → length l ≤ fuel → argc ≤ SHELL_ARG_MAX →
  length args = SHELL_ARG_MAX →
  let st := split_loop fuel (length pre + length l) (length pre)
              (mkSplit (pre ++ l ++ NUL :: post) args argc io) in
  let k := (SHELL_ARG_MAX - argc) `min` length (words l) in
  s_argc st = argc + k
  ∧ length (s_argv st) = SHELL_ARG_MAX
  ∧ take argc (s_argv st) = take argc args
  ∧ s_io st = (if decide (SHELL_ARG_MAX - argc < length (words l))
               then print too_many_arguments io else io)
  ∧ s_input st = pre ++ mark k l ++ NUL :: post
  ∧ cstr (s_input st) <$> take k (drop argc (s_argv st)) = take k (words l).
Proof.
  induction fuel as [|fuel IH]; intros l pre post args argc io Hl Hfuel Hargc Hargs;
    cbv zeta.
  - destruct l; [|simpl in Hfuel; lia]. simpl.
    rewrite Nat.min_0_r. try rewrite decide_False by lia. simpl.
    split_and!; [lia|done..].
  - rewrite split_loop_unfold. cbn [s_argc s_argv s_input s_io].
    destruct (decide (length pre < length pre + length l)) as [Hlt|Hge].
    2:{ destruct l; [|simpl in Hge; lia]. simpl.
        rewrite Nat.min_0_r. try rewrite decide_False by lia. simpl.
        split_and!; [lia|done..]. }
    assert (l ≠ []) as Hne by (intros ->; simpl in Hlt; lia).
    pose proof (words_nonempty l Hne) as Hws.
    destruct (decide (argc < SHELL_ARG_MAX)) as [Hroom|Hfull].
    2:{ replace (SHELL_ARG_MAX - argc) with 0 by lia.
        rewrite Nat.min_0_l. rewrite decide_True by lia.
        cbn [s_argc s_argv s_input s_io]. split_and!; [lia|done..]. }
    cbv zeta.
    replace (length pre + length l - length pre) with (length l) by lia.
    rewrite memchr_middle.
    destruct (find_byte SP l) as [q|] eqn:Efind; cbn [fmap option_fmap option_map].
    + apply find_byte_Some in Efind as (w & rest & -> & Hw & <-).
      assert (cstring w) as Hcw.
      { intros ?. apply Hl. apply elem_of_app. by left. }
      assert (cstring rest) as Hcr.
      { intros ?. apply Hl. apply elem_of_app. right. by right. }
      rewrite <- (app_assoc w), <- app_comm_cons.
      rewrite (insert_middle pre w SP NUL).
      unfold strlen. rewrite cstr_at by done.
      rewrite length_app in Hfuel |- *. cbn [length] in Hfuel |- *.
      replace (pre ++ w ++ NUL :: rest ++ NUL :: post)
        with ((pre ++ w ++ [NUL]) ++ rest ++ NUL :: post)
        by (by rewrite <- !app_assoc).
      replace (length pre + length w + 1) with (length (pre ++ w ++ [NUL]))
        by (rewrite !length_app; simpl; lia).
      replace (length pre + (length w + S (length rest)))
        with (length (pre ++ w ++ [NUL]) + length rest)
        by (rewrite !length_app; simpl; lia).
      destruct (IH rest (pre ++ w ++ [NUL]) post (<[argc := length pre]> args)
                  (argc + 1) io) as (IH1 & IH2 & IH3 & IH4 & IH5 & IH6);
        [done|lia|lia|by rewrite length_insert|].
      set (st := split_loop _ _ _ _) in *.
      rewrite words_app_space by done. cbn [length].
      set (k' := (SHELL_ARG_MAX - (argc + 1)) `min` length (words rest)) in *.
      replace ((SHELL_ARG_MAX - argc) `min` S (length (words rest))) with (S k') by lia.
      assert (s_argv st !! argc = Some (length pre)) as Hslot.
      { rewrite <- (lookup_take_lt (s_argv st) (argc + 1)) by lia.
        rewrite IH3. rewrite lookup_take_lt by lia.
        apply list_lookup_insert_eq. lia. }
      split_and!.
      * lia.
      * done.
      * rewrite <- (take_take_le (s_argv st) argc (argc + 1)) by lia. rewrite IH3.
        rewrite take_take_le by lia. apply take_insert_ge. lia.
      * rewrite IH4. repeat case_decide; done || lia.
      * rewrite IH5. cbn [mark]. rewrite find_byte_app by done.
        rewrite take_app_length.
        assert (drop (S (length w)) (w ++ SP :: rest) = rest) as ->.
        { rewrite (cons_middle SP), app_assoc. apply drop_app_length'.
          rewrite length_app. simpl. lia. }
        by rewrite <- !app_assoc.
      * rewrite (drop_S _ _ _ Hslot). cbn [take fmap list_fmap]. f_equal.
        -- rewrite IH5. rewrite <- !app_assoc. by apply cstr_at.
        -- replace (S argc) with (argc + 1) by lia. done.
    + apply find_byte_None in Efind.
      unfold strlen. rewrite cstr_at by done.
      rewrite split_loop_done by lia. cbn [s_argc s_argv s_input s_io].
      rewrite words_no_space by done. cbn [length].
      replace ((SHELL_ARG_MAX - argc) `min` 1) with 1 by lia.
      split_and!.
      * done.
      * by rewrite length_insert.
      * apply take_insert_ge. lia.
      * rewrite decide_False; [done|lia].
      * cbn [mark]. by rewrite (proj2 (find_byte_None SP l)).
      * rewrite (drop_S _ (length pre) argc).
        2:{ apply list_lookup_insert_eq. lia. }
        cbn [take fmap list_fmap]. f_equal. by apply cstr_at.
Qed.

Lemma SHELL_ARG_MAX_pos : 0 < SHELL_ARG_MAX.
Proof. unfold SHELL_ARG_MAX. lia. Qed.

(** What the block under [// split arguments] leaves, for a line of text. *)
Lemma split_arguments_words buf args end_ io :
  end_ < length buf → length args = SHELL_ARG_MAX → cstring (take end_ buf) →
  let line := take end_ buf in
  let st := split_arguments buf args end_ io in
  let k := SHELL_ARG_MAX `min` length (words line) in
  s_argc st = k
  ∧ arg_strings st = take SHELL_ARG_MAX (words line)
  ∧ s_io st = (if decide (SHELL_ARG_MAX < length (words line))
               then print too_many_arguments (print (line ++ [LF]) io)
               else print (line ++ [LF]) io)
  ∧ s_input st = mark k line ++ NUL :: drop (S end_) buf
  ∧ length (s_argv st) = SHELL_ARG_MAX.
Proof.
  intros Hend Hargs Hline. cbv zeta. unfold split_arguments, arg_strings.
  rewrite (insert_take_drop buf end_ NUL) by done.
  assert (length (take end_ buf) = end_) as Hlen by (rewrite length_take; lia).
  destruct (split_loop_words end_ (take end_ buf) [] (drop (S end_) buf) args 0
              (print (cstr (take end_ buf ++ NUL :: drop (S end_) buf) 0 ++ [LF]) io))
    as (H1 & H2 & _ & H4 & H5 & H6); [done|lia|lia|done|].
  rewrite Hlen in *. cbn [length app] in *.
  change (0 + ?n) with n in *. rewrite Nat.sub_0_r in *. rewrite drop_0 in H6.
  change (cstr (take end_ buf ++ NUL :: drop (S end_) buf) 0)
    with (cstr ([] ++ take end_ buf ++ NUL :: drop (S end_) buf) (length (@nil ascii))) in *.
  rewrite (cstr_at [] (take end_ buf)) in * by done. cbn [app] in *.
  set (st := split_loop _ _ _ _) in *.
  split_and!; [done| |done|done|done].
  rewrite H1, H6. destruct (Nat.min_spec SHELL_ARG_MAX (length (words (take end_ buf))))
    as [[? ->]|[? ->]]; [done|].
  rewrite (take_ge (words (take end_ buf)) (length _)) by lia.
  by rewrite (take_ge (words (take end_ buf)) SHELL_ARG_MAX) by lia.
Qed.

(** The loop writes only before [end_], and counts at most [SHELL_ARG_MAX]
    arguments. *)
Lemma split_loop_frame fuel : ∀ end_ i st,
  let st' := split_loop fuel end_ i st in
  length (s_input st') = length (s_input st)
  ∧ drop end_ (s_input st') = drop end_ (s_input st)
  ∧ length (s_argv st') = length (s_argv st)
  ∧ s_argc st ≤ s_argc st'
  ∧ (s_argc st ≤ SHELL_ARG_MAX → s_argc st' ≤ SHELL_ARG_MAX).
Proof.
  induction fuel as [|fuel IH]; intros end_ i st; cbv zeta; [done|].
  rewrite split_loop_unfold.
  destruct (decide (i < end_)); [|done].
  destruct (decide (s_argc st < SHELL_ARG_MAX)); [|done].
  cbv zeta.
  set (input1 := match memchr _ _ _ _ with Some _ => _ | None => _ end).
  assert (length input1 = length (s_input st)
          ∧ drop end_ input1 = drop end_ (s_input st)) as [Hlen Hdrop].
  { subst input1. destruct (memchr _ _ _ _) as [space|] eqn:E; [|done].
    apply memchr_Some in E as (? & ? & _).
    rewrite length_insert. split; [done|]. apply drop_insert_lt. lia. }
  destruct (IH end_ (i + strlen input1 i + 1)
              (mkSplit input1 (<[s_argc st := i]> (s_argv st)) (s_argc st + 1) (s_io st)))
    as (H1 & H2 & H3 & H4 & H5).
  cbn [s_input s_argv s_argc] in *.
  rewrite length_insert in H3.
  split_and!; [congruence|congruence|done|lia|intros; apply H5; lia].
Qed.

Lemma split_arguments_frame buf args end_ io :
  end_ < length buf →
  let st := split_arguments buf args end_ io in
  length (s_input st) = length buf
  ∧ drop (S end_) (s_input st) = drop (S end_) buf
  ∧ s_input st !! end_ = Some NUL
  ∧ length (s_argv st) = length args
  ∧ s_argc st ≤ SHELL_ARG_MAX
  ∧ (s_argc st = 0 ↔ end_ = 0).
Proof.
  intros Hend. cbv zeta. unfold split_arguments.
  set (io1 := print _ io).
  destruct (split_loop_frame end_ end_ 0 (mkSplit (<[end_ := NUL]> buf) args 0 io1))
    as (H1 & H2 & H3 & _ & H5).
  cbn [s_input s_argv s_argc] in *. rewrite length_insert in H1.
  split_and!; [done| | |done|apply H5; lia|].
  - replace (S end_) with (end_ + 1) by lia.
    rewrite <- (drop_drop (s_input _) 1 end_), H2, drop_drop.
    apply drop_insert_lt. lia.
  - pose proof (lookup_drop (s_input (split_loop end_ end_ 0
        (mkSplit (<[end_ := NUL]> buf) args 0 io1))) end_ 0) as Hl.
    rewrite H2, lookup_drop, !Nat.add_0_r in Hl. rewrite <- Hl.
    apply list_lookup_insert_eq. lia.
  - destruct end_ as [|e]; [done|]. split; [|done]. rewrite split_loop_unfold.
    rewrite decide_True by lia. cbn [s_argc].
    rewrite decide_True by apply SHELL_ARG_MAX_pos. cbv zeta.
    cbn [s_argc s_argv s_input s_io].
    set (input1 := match memchr _ _ _ _ with Some _ => _ | None => _ end).
    destruct (split_loop_frame e (S e) (0 + strlen input1 0 + 1)
                (mkSplit input1 (<[0 := 0]> args) (0 + 1) io1)) as (_ & _ & _ & H & _).
    cbn [s_argc] in H. lia.
Qed.

(** ** Lines, tokens and separators *)

Lemma chomp_space_cons c rest :
  rest ≠ [] → chomp_space (c :: rest) = c :: chomp_space rest.
Proof.
  intros Hne. unfold chomp_space. destruct rest as [|d rest]; [done|].
  rewrite last_cons_cons. destruct (last (d :: rest)) as [x|] eqn:E; [|done].
  destruct (decide (x = SP)); [|done].
  cbn [length]. rewrite !Nat.sub_succ, !Nat.sub_0_r. done.
Qed.

Lemma join_words line : join SP (words line) = chomp_space line.
Proof.
  induction line as [|c rest IH]; [done|].
  destruct (decide (rest = [])) as [->|Hne].
  - unfold chomp_space. simpl. by destruct (decide (c = SP)).
  - rewrite chomp_space_cons by done. rewrite <- IH.
    pose proof (words_nonempty rest Hne) as Hws.
    change (words (c :: rest))
      with (if decide (c = SP) then [] :: words rest
            else match words rest with
                 | [] => [[c]]
                 | w0 :: ws => (c :: w0) :: ws
                 end).
    destruct (words rest) as [|w ws]; [simpl in Hws; lia|].
    destruct (decide (c = SP)) as [->|]; [done|].
    cbn [join]. by destruct ws.
Qed.

Lemma chomp_space_id line : last line ≠ Some SP → chomp_space line = line.
Proof.
  unfold chomp_space. destruct (last line) as [c|]; [|done].
  intros H. rewrite decide_False; [done|congruence].
Qed.

Lemma words_two line :
  1 < length (words line) → ∃ w rest, line = w ++ SP :: rest ∧ (SP ∉ w).
Proof.
  intros H. destruct (find_byte SP line) as [q|] eqn:E.
  - apply find_byte_Some in E as (w & rest & -> & ? & _). by exists w, rest.
  - apply find_byte_None in E. destruct line as [|c line]; [simpl in H; lia|].
    rewrite words_no_space in H by done. simpl in H. lia.
Qed.

Lemma terminated_cons w ws : terminated (w :: ws) = w ++ NUL :: terminated ws.
Proof. unfold terminated. simpl. by rewrite <- app_assoc. Qed.

Lemma mark_space k w rest :
  SP ∉ w → mark (S k) (w ++ SP :: rest) = w ++ NUL :: mark k rest.
Proof.
  intros. cbn [mark]. rewrite find_byte_app by done. rewrite take_app_length.
  assert (drop (S (length w)) (w ++ SP :: rest) = rest) as ->; [|done].
  rewrite (cons_middle SP), app_assoc. apply drop_app_length'.
  rewrite length_app. simpl. lia.
Qed.

(** When the loop stops after [k + 1] tokens with more to come, the buffer
    holds these tokens, each with its terminator, and then the rest of the
    line as it was. *)
Lemma mark_truncated k : ∀ line,
  S k < length (words line) →
  ∃ rest, line = join SP (take (S k) (words line)) ++ SP :: rest
          ∧ mark (S k) line = terminated (take (S k) (words line)) ++ rest.
Proof.
  induction k as [|k IH]; intros line H.
  - destruct (words_two line) as (w & rest & -> & Hw); [lia|].
    exists rest. rewrite words_app_space by done. rewrite mark_space by done.
    cbn [take join mark].
    split; [done|]. rewrite terminated_cons. unfold terminated. simpl.
    by rewrite <- app_assoc.
  - destruct (words_two line) as (w & r & -> & Hw); [lia|].
    rewrite words_app_space in H |- * by done. cbn [length] in H.
    destruct (IH r) as (rest & Hr & Hm); [lia|].
    exists rest. rewrite mark_space by done.
    rewrite Hm. change (take (S (S k)) (w :: words r)) with (w :: take (S k) (words r)).
    rewrite terminated_cons. split.
    + rewrite Hr at 1. destruct (words r) as [|w1 ws1]; [simpl in H; lia|].
      cbn [take join]. by rewrite <- app_assoc.
    + by rewrite <- app_assoc.
Qed.

(** ** [strcmp] as an order on C strings *)

Lemma uchar_nonneg c : (0 ≤ uchar c)%Z.
Proof. unfold uchar. lia. Qed.

Lemma uchar_inj a b : uchar a = uchar b → a = b.
Proof.
  unfold uchar. intros H%N2Z.inj.
  rewrite <- (ascii_N_embedding a), <- (ascii_N_embedding b). congruence.
Qed.

Lemma uchar_pos c : c ≠ NUL → (0 < uchar c)%Z.
Proof.
  intros H. pose proof (uchar_nonneg c).
  destruct (decide (uchar c = 0%Z)) as [E|]; [|lia].
  exfalso. apply H. by apply uchar_inj.
Qed.

Lemma cstring_cons c s : cstring (c :: s) ↔ c ≠ NUL ∧ cstring s.
Proof.
  unfold cstring. rewrite not_elem_of_cons.
  split; intros [? ?]; (split; [congruence|done]).
Qed.

Lemma strcmp_cons x a y b :
  strcmp (x :: a) (y :: b) =
    if decide (x = y) then (if decide (x = NUL) then 0%Z else strcmp a b)
    else (uchar x - uchar y)%Z.
Proof. done. Qed.

Lemma strcmp_refl a : strcmp a a = 0%Z.
Proof.
  induction a as [|x a IH]; [done|]. rewrite strcmp_cons.
  rewrite decide_True by done. by destruct (decide (x = NUL)).
Qed.

Lemma strcmp_eq a b : cstring a → cstring b → strcmp a b = 0%Z → a = b.
Proof.
  revert b. induction a as [|x a IH]; intros [|y b] Ha Hb H; [done|..].
  - apply cstring_cons in Hb as [Hy _]. apply uchar_pos in Hy. simpl in H. lia.
  - apply cstring_cons in Ha as [Hx _]. apply uchar_pos in Hx. simpl in H. lia.
  - apply cstring_cons in Ha as [Hx Ha]. apply cstring_cons in Hb as [Hy Hb].
    rewrite strcmp_cons in H. destruct (decide (x = y)) as [->|Hne].
    + rewrite decide_False in H by done. f_equal. by apply IH.
    + exfalso. apply Hne. apply uchar_inj. lia.
Qed.

Lemma strcmp_antisym a b : strcmp b a = (- strcmp a b)%Z.
Proof.
  revert b. induction a as [|x a IH]; intros [|y b]; [done|simpl; lia..|].
  rewrite !strcmp_cons. destruct (decide (x = y)) as [->|Hne].
  - rewrite decide_True by done. destruct (decide (y = NUL)); [done|apply IH].
  - rewrite decide_False by congruence. lia.
Qed.

Lemma name_lt_trans a b c :
  cstring a → cstring b → cstring c → name_lt a b → name_lt b c → name_lt a c.
Proof.
  unfold name_lt. revert b c.
  induction a as [|x a IH]; intros [|y b] [|z c] Ha Hb Hc Hab Hbc.
  - done.
  - simpl in Hab. lia.
  - pose proof (uchar_nonneg y). simpl in Hbc. lia.
  - apply cstring_cons in Hc as [Hz _]. apply uchar_pos in Hz. simpl. lia.
  - simpl in Hbc. lia.
  - pose proof (uchar_nonneg x). simpl in Hab. lia.
  - pose proof (uchar_nonneg y). simpl in Hbc. lia.
  - apply cstring_cons in Ha as [Hx Ha]. apply cstring_cons in Hb as [Hy Hb].
    apply cstring_cons in Hc as [Hz Hc].
    rewrite strcmp_cons in *.
    destruct (decide (x = y)) as [->|Hxy], (decide (y = z)) as [->|Hyz].
    + rewrite decide_False in Hab, Hbc |- * by done. by apply (IH b c).
    + lia.
    + rewrite decide_False by done. lia.
    + destruct (decide (x = z)) as [->|Hxz]; lia.
Qed.

(** On C strings the sign of [strcmp] decides the dictionary order. *)
Lemma strcmp_bytes_lt a b :
  cstring a → cstring b → name_lt a b ↔ bytes_lt a b.
Proof.
  unfold name_lt. revert b. induction a as [|x a IH]; intros [|y b] Ha Hb.
  - simpl. lia.
  - apply cstring_cons in Hb as [Hy _]. apply uchar_pos in Hy. simpl. split; [done|lia].
  - pose proof (uchar_nonneg x). simpl. lia.
  - apply cstring_cons in Ha as [Hx Ha]. apply cstring_cons in Hb as [Hy Hb].
    rewrite strcmp_cons. cbn [bytes_lt]. destruct (decide (x = y)) as [->|Hne].
    + rewrite decide_False by done. rewrite IH by done. split; [by right|].
      intros [?|[_ ?]]; [lia|done].
    + split; [left; lia|]. intros [?|[? _]]; [lia|done].
Qed.

Lemma sorted_names names :
  Forall cstring names → StronglySorted bytes_lt names → StronglySorted name_lt names.
Proof.
  intros Hc Hs. induction Hs as [|n names Hs IH Hall]; [constructor|].
  apply Forall_cons in Hc as [Hn Hc]. constructor; [by apply IH|].
  rewrite Forall_forall in Hall, Hc |- *. intros m Hm.
  apply strcmp_bytes_lt; [done|by apply Hc|by apply Hall].
Qed.

Lemma name_lt_irrefl a : ¬ name_lt a a.
Proof. unfold name_lt. rewrite strcmp_refl. lia. Qed.

(** In a sorted list of names, a name stands before the ones that
    follow it. *)
Lemma sorted_names_lt names i j a b :
  StronglySorted name_lt names →
  names !! i = Some a → names !! j = Some b → i < j → name_lt a b.
Proof.
  intros Hs. revert i j. induction Hs as [|n names Hs IH Hall]; intros i j Hi Hj Hij.
  - done.
  - destruct j as [|j]; [lia|]. destruct i as [|i]; simplify_eq/=.
    + rewrite Forall_forall in Hall. apply Hall. by eapply list_elem_of_lookup_2.
    + eapply IH; [done..|lia].
Qed.

(** ** The binary search *)

Lemma bsearch_loop_unfold {E} fuel (cmp : E → option Z) base l u ncmp :
  bsearch_loop (S fuel) cmp base l u ncmp =
    if decide (l < u) then
      let idx := (l + u) `div` 2 in
      p ← base !! idx;
      comparison ← cmp p;
      if decide (comparison < 0)%Z then bsearch_loop fuel cmp base l idx (S ncmp)
      else if decide (0 < comparison)%Z then bsearch_loop fuel cmp base (S idx) u (S ncmp)
      else Some (Some p, S ncmp)
    else Some (None, ncmp).
Proof. done. Qed.

Lemma midpoint l u : l < u → l ≤ (l + u) `div` 2 < u.
Proof.
  intros. pose proof (Nat.div_mod_eq (l + u) 2) as Hd.
  pose proof (Nat.mod_upper_bound (l + u) 2). lia.
Qed.

Lemma halvings_half d d' : 0 < d → 2 * d' ≤ d → S (halvings d') ≤ halvings d.
Proof.
  intros Hd Hd'. destruct d as [|d]; [lia|]. destruct d' as [|d']; simpl; [lia|].
  apply le_n_S. rewrite <- Nat.log2_double by lia.
  apply Nat.log2_le_mono. lia.
Qed.

(** The search ends, and calls [cmp] at most [halvings (u - l)] times. *)
Lemma bsearch_loop_cost {E} (cmp : E → option Z) base fuel : ∀ l u ncmp,
  u - l ≤ fuel → u ≤ length base →
  (∀ i e, l ≤ i < u → base !! i = Some e → is_Some (cmp e)) →
  ∃ found n, bsearch_loop fuel cmp base l u ncmp = Some (found, n)
             ∧ n ≤ ncmp + halvings (u - l).
Proof.
  induction fuel as [|fuel IH]; intros l u ncmp Hfuel Hu Hcmp.
  - exists None, ncmp. simpl. rewrite decide_False by lia. split; [done|lia].
  - rewrite bsearch_loop_unfold. destruct (decide (l < u)) as [Hlu|];
      [|exists None, ncmp; split; [done|lia]].
    cbv zeta. pose proof (midpoint l u Hlu) as Hmid.
    pose proof (Nat.div_mod_eq (l + u) 2) as Hd.
    pose proof (Nat.mod_upper_bound (l + u) 2) as Hm.
    set (idx := (l + u) `div` 2) in *.
    destruct (lookup_lt_is_Some_2 base idx) as [p Hp]; [lia|].
    rewrite Hp. cbn [mbind option_bind].
    destruct (Hcmp idx p) as [z Hz]; [lia|done|]. rewrite Hz. cbn [mbind option_bind].
    destruct (decide (z < 0)%Z) as [Hneg|Hnn];
      [|destruct (decide (0 < z)%Z) as [Hpos|Hnp]].
    + destruct (IH l idx (S ncmp)) as (found & m & -> & Hn); [lia|lia| |].
      { intros i e ?. apply Hcmp. lia. }
      exists found, m. split; [done|].
      pose proof (halvings_half (u - l) (idx - l)). lia.
    + destruct (IH (S idx) u (S ncmp)) as (found & m & -> & Hn); [lia|lia| |].
      { intros i e ?. apply Hcmp. lia. }
      exists found, m. split; [done|].
      pose proof (halvings_half (u - l) (u - S idx)). lia.
    + exists (Some p), (S ncmp). split; [done|].
      pose proof (halvings_half (u - l) 0). lia.
Qed.

(** An element the search returns stands in the range searched and compares
    equal to the key. *)
Lemma bsearch_loop_found {E} (cmp : E → option Z) base fuel : ∀ l u ncmp p n,
  bsearch_loop fuel cmp base l u ncmp = Some (Some p, n) →
  ∃ i, l ≤ i < u ∧ base !! i = Some p ∧ cmp p = Some 0%Z.
Proof.
  induction fuel as [|fuel IH]; intros l u ncmp p n.
  - simpl. by destruct (decide (l < u)).
  - rewrite bsearch_loop_unfold. destruct (decide (l < u)) as [Hlu|]; [|done].
    cbv zeta. pose proof (midpoint l u Hlu) as Hmid.
    set (idx := (l + u) `div` 2) in *.
    destruct (base !! idx) as [q|] eqn:Hq; [|done]. cbn [mbind option_bind].
    destruct (cmp q) as [z|] eqn:Hz; [|done]. cbn [mbind option_bind].
    destruct (decide (z < 0)%Z) as [Hneg|Hnn];
      [|destruct (decide (0 < z)%Z) as [Hpos|Hnp]].
    + intros (i & ? & ?)%IH. exists i. split; [lia|done].
    + intros (i & ? & ?)%IH. exists i. split; [lia|done].
    + intros [= <- <-]. exists idx. split_and!; [lia..|done|].
      rewrite Hz. f_equal. lia.
Qed.

(** The search reads the array below [u] only. *)
Lemma bsearch_loop_take {E} (cmp : E → option Z) base fuel : ∀ l u ncmp m,
  u ≤ m →
  bsearch_loop fuel cmp (take m base) l u ncmp = bsearch_loop fuel cmp base l u ncmp.
Proof.
  induction fuel as [|fuel IH]; intros l u ncmp m Hm; [done|].
  rewrite !bsearch_loop_unfold. destruct (decide (l < u)) as [Hlu|]; [|done].
  cbv zeta. pose proof (midpoint l u Hlu) as Hmid.
  set (idx := (l + u) `div` 2) in *.
  rewrite lookup_take_lt by lia.
  destruct (base !! idx) as [q|]; [|done]. cbn [mbind option_bind].
  destruct (cmp q) as [z|]; [|done]. cbn [mbind option_bind].
  rewrite !IH by lia. done.
Qed.

(** ** Looking a name up in a sorted table *)

Section lookup.
Variable sh : Shell.
Variable names : list (list ascii).
Hypothesis Hnames : name <$> table sh = Some <$> names.
Hypothesis Hcount : length names = cmd_count sh.
Hypothesis Hcstr : Forall cstring names.
Hypothesis Hsorted : StronglySorted name_lt names.

Lemma cmd_count_le : cmd_count sh ≤ length (commands sh).
Proof using Hnames Hcount.
  assert (length (name <$> table sh) = length (Some <$> names)) as H by by rewrite Hnames.
  rewrite !length_fmap in H. unfold table in H. rewrite length_take in H. lia.
Qed.

Lemma table_lookup i c :
  i < cmd_count sh → commands sh !! i = Some c →
  ∃ n, name c = Some n ∧ names !! i = Some n ∧ cstring n.
Proof using Hnames Hcount Hcstr.
  intros Hi Hc.
  assert ((name <$> table sh) !! i = (Some <$> names) !! i) as H by by rewrite Hnames.
  rewrite !list_lookup_fmap in H. unfold table in H.
  rewrite lookup_take_lt, Hc in H by done.
  destruct (names !! i) as [n|] eqn:En; simplify_eq/=.
  exists n. split_and!; [done..|].
  rewrite Forall_forall in Hcstr. apply Hcstr. by eapply list_elem_of_lookup_2.
Qed.

Lemma table_elem c :
  c ∈ table sh → ∃ i, i < cmd_count sh ∧ commands sh !! i = Some c.
Proof.
  unfold table. intros (i & Hi)%list_elem_of_lookup_1.
  apply lookup_take_Some in Hi as [? ?]. by exists i.
Qed.

Lemma bsearch_ends key :
  ∃ found n, bsearch_counted (cmp key) (commands sh) (cmd_count sh) = Some (found, n)
             ∧ n ≤ halvings (cmd_count sh).
Proof using Hnames Hcount Hcstr.
  destruct (bsearch_loop_cost (cmp key) (commands sh) (cmd_count sh) 0 (cmd_count sh) 0)
    as (found & n & H & Hn); [lia|apply cmd_count_le| |].
  - intros i c [_ Hi] Hc. destruct (table_lookup i c Hi Hc) as (n & Hn & _).
    unfold cmp. by rewrite Hn.
  - exists found, n. split; [done|]. by rewrite Nat.sub_0_r in Hn.
Qed.

(** A miss leaves no name of the range equal to the key. *)
Lemma bsearch_loop_miss key fuel : ∀ l u ncmp n,
  u ≤ cmd_count sh →
  bsearch_loop fuel (cmp key) (commands sh) l u ncmp = Some (None, n) →
  ∀ j, l ≤ j < u → names !! j ≠ Some key.
Proof using Hnames Hcount Hcstr Hsorted.
  induction fuel as [|fuel IH]; intros l u ncmp n Hu.
  - simpl. destruct (decide (l < u)); [done|]. intros _ j ?. lia.
  - rewrite bsearch_loop_unfold. destruct (decide (l < u)) as [Hlu|];
      [|intros _ j ?; lia].
    cbv zeta. pose proof (midpoint l u Hlu) as Hmid.
    set (idx := (l + u) `div` 2) in *.
    destruct (commands sh !! idx) as [q|] eqn:Hq; [|done]. cbn [mbind option_bind].
    destruct (table_lookup idx q) as (nq & Hnq & Hidx & _); [lia|done|].
    assert (cmp key q = Some (strcmp key nq)) as Hz by (unfold cmp; by rewrite Hnq).
    rewrite Hz. cbn [mbind option_bind].
    destruct (decide (strcmp key nq < 0)%Z) as [Hneg|Hnn];
      [|destruct (decide (0 < strcmp key nq)%Z) as [Hpos|Hnp]]; [| |done].
    + intros H j Hj Hkey.
      destruct (decide (j < idx)) as [Hji|Hji];
        [exact (IH l idx (S ncmp) n ltac:(lia) H j ltac:(lia) Hkey)|].
      destruct (decide (j = idx)) as [->|Hne].
      * simplify_eq. rewrite strcmp_refl in Hneg. lia.
      * assert (name_lt nq key) as Hlt.
        { eapply (sorted_names_lt names idx j); [done..|lia]. }
        unfold name_lt in Hlt. rewrite (strcmp_antisym key nq) in Hlt. lia.
    + intros H j Hj Hkey.
      destruct (decide (idx < j)) as [Hji|Hji];
        [exact (IH (S idx) u (S ncmp) n ltac:(lia) H j ltac:(lia) Hkey)|].
      destruct (decide (j = idx)) as [->|Hne].
      * simplify_eq. rewrite strcmp_refl in Hpos. lia.
      * assert (name_lt key nq) as Hlt.
        { eapply (sorted_names_lt names j idx); [done..|lia]. }
        unfold name_lt in Hlt. lia.
Qed.

Lemma bsearch_hit key c :
  cstring key → c ∈ table sh → name c = Some key →
  bsearch (cmp key) (commands sh) (cmd_count sh) = Some (Some c).
Proof using Hnames Hcount Hcstr Hsorted.
  intros Hkey (j & Hj & Hc)%table_elem Hname.
  destruct (table_lookup j c Hj Hc) as (n & Hn & Hnj & _). simplify_eq.
  destruct (bsearch_ends key) as (found & m & H & _).
  unfold bsearch. rewrite H. cbn [fmap option_fmap option_map fst]. do 2 f_equal.
  destruct found as [c'|].
  - unfold bsearch_counted in H.
    apply bsearch_loop_found in H as (i & Hi & Hc' & Hz).
    destruct (table_lookup i c') as (n' & Hn' & Hni & Hcn'); [lia|done|].
    unfold cmp in Hz. rewrite Hn' in Hz. simplify_eq/=.
    assert (key = n') as <- by by apply strcmp_eq.
    destruct (decide (i = j)) as [->|Hne]; [congruence|].
    exfalso. apply (name_lt_irrefl key).
    destruct (decide (i < j)).
    + by eapply (sorted_names_lt names i j).
    + eapply (sorted_names_lt names j i); [done..|lia].
  - exfalso. unfold bsearch_counted in H.
    eapply (bsearch_loop_miss key _ 0 (cmd_count sh) 0 m); [lia|done| |done]. lia.
Qed.

Lemma bsearch_miss key :
  cstring key → (∀ c, c ∈ table sh → name c ≠ Some key) →
  bsearch (cmp key) (commands sh) (cmd_count sh) = Some None.
Proof using Hnames Hcount Hcstr.
  intros Hkey Hno.
  destruct (bsearch_ends key) as (found & m & H & _).
  unfold bsearch. rewrite H. cbn [fmap option_fmap option_map fst]. do 2 f_equal.
  destruct found as [c'|]; [|done]. exfalso.
  unfold bsearch_counted in H.
  apply bsearch_loop_found in H as (i & Hi & Hc' & Hz).
  destruct (table_lookup i c') as (n' & Hn' & Hni & Hcn'); [lia|done|].
  unfold cmp in Hz. rewrite Hn' in Hz. simplify_eq/=.
  assert (key = n') as <- by by apply strcmp_eq.
  apply (Hno c'); [|done]. unfold table.
  eapply list_elem_of_lookup_2. apply lookup_take_Some. split; [done|lia].
Qed.
End lookup.

(** ** One round of the loop *)

Lemma memchr_read buf bufhead a b c :
  bufhead ≤ length buf → c ∉ a →
  memchr (write_at buf bufhead (a ++ c :: b)) bufhead c (length (a ++ c :: b))
    = Some (bufhead + length a).
Proof.
  intros. unfold memchr. rewrite drop_write_at by done.
  rewrite take_app_length. by rewrite find_byte_app.
Qed.

Lemma memchr_read_None buf bufhead bytes c :
  bufhead ≤ length buf → c ∉ bytes →
  memchr (write_at buf bufhead bytes) bufhead c (length bytes) = None.
Proof.
  intros. unfold memchr. rewrite drop_write_at by done.
  rewrite take_app_length. by rewrite (proj2 (find_byte_None c bytes)).
Qed.

(** A read that brings no newline. *)
Lemma loop_body_no_newline sh bufhead io bytes io1 :
  bufhead ≤ length (input sh) →
  readBytes io (SHELL_LINE_MAX - bufhead) = (bytes, io1) → LF ∉ bytes →
  loop_body sh bufhead io =
    Some (if decide (SHELL_LINE_MAX ≤ bufhead + length bytes) then
            (set_arrays (write_at (input sh) bufhead bytes) (argv sh) sh, 0,
             prompt (print line_too_long io1))
          else
            (set_arrays (write_at (input sh) bufhead bytes) (argv sh) sh,
             bufhead + length bytes, io1)).
Proof.
  intros Hb Hread Hlf. unfold loop_body. rewrite Hread.
  rewrite memchr_read_None by done. by case_decide.
Qed.

(** A read whose first byte, stored at the start of the buffer, is the
    newline: the line is empty. *)
Lemma loop_body_empty_line sh io b io1 :
  0 < length (input sh) →
  readBytes io (SHELL_LINE_MAX - 0) = (LF :: b, io1) →
  loop_body sh 0 io =
    Some (set_arrays (<[0 := NUL]> (write_at (input sh) 0 (LF :: b))) (argv sh) sh,
          0, print [LF] io1).
Proof.
  intros Hlen Hread. unfold loop_body. rewrite Hread.
  pose proof (memchr_read (input sh) 0 [] b LF ltac:(lia) (not_elem_of_nil _)) as Hfound.
  change ([] ++ LF :: b) with (LF :: b) in Hfound.
  change (0 + length (@nil ascii)) with 0 in Hfound. rewrite Hfound.
  unfold split_arguments. cbn [split_loop s_argc s_input s_argv s_io].
  rewrite decide_True by done. do 3 f_equal.
Qed.

(** A read that brings the newline of a line that is not empty. *)
Lemma loop_body_line sh bufhead io a b io1 :
  bufhead ≤ length (input sh) →
  bufhead + length (a ++ LF :: b) ≤ length (input sh) →
  readBytes io (SHELL_LINE_MAX - bufhead) = (a ++ LF :: b, io1) → (LF ∉ a) →
  0 < bufhead + length a →
  let end_ := bufhead + length a in
  let st := split_arguments (write_at (input sh) bufhead (a ++ LF :: b)) (argv sh) end_ io1 in
  loop_body sh bufhead io =
    io2 ← execute_command sh st;
    Some (set_arrays (if decide (0 < length b)
                      then memmove (s_input st) 0 (end_ + 1) (length b)
                      else s_input st)
                     (s_argv st) sh,
          length b, prompt io2).
Proof.
  intros Hb Hfit Hread Hlf Hne. cbv zeta. unfold loop_body. rewrite Hread.
  rewrite memchr_read by done.
  set (st := split_arguments _ _ _ _).
  destruct (split_arguments_frame (write_at (input sh) bufhead (a ++ LF :: b)) (argv sh)
              (bufhead + length a) io1) as (_ & _ & _ & _ & _ & Hargc).
  { rewrite length_write_at by done. rewrite length_app in Hfit. simpl in Hfit. lia. }
  fold st in Hargc. rewrite decide_False by (rewrite Hargc; lia).
  replace (bufhead + length (a ++ LF :: b) - (bufhead + length a + 1)) with (length b)
    by (rewrite length_app; simpl; lia).
  done.
Qed.

(** The bytes read after the newline, once moved to the front. *)
Lemma leftover_moved buf bufhead a b args io :
  bufhead ≤ length buf →
  bufhead + length (a ++ LF :: b) ≤ length buf →
  let end_ := bufhead + length a in
  let st := split_arguments (write_at buf bufhead (a ++ LF :: b)) args end_ io in
  take (length b) (if decide (0 < length b)
                   then memmove (s_input st) 0 (end_ + 1) (length b)
                   else s_input st) = b
  ∧ length (if decide (0 < length b)
            then memmove (s_input st) 0 (end_ + 1) (length b)
            else s_input st) = length buf.
Proof.
  intros Hb Hfit. cbv zeta.
  set (st := split_arguments _ _ _ _).
  assert (length (a ++ LF :: b) = length a + S (length b)) as Hlen
    by (rewrite length_app; simpl; lia).
  destruct (split_arguments_frame (write_at buf bufhead (a ++ LF :: b)) args
              (bufhead + length a) io) as (H1 & H2 & _).
  { rewrite length_write_at by done. lia. }
  fold st in H1, H2. rewrite length_write_at in H1 by done.
  destruct (decide (0 < length b)) as [Hpos|Hzero].
  2:{ destruct b; [|simpl in Hzero; lia]. by rewrite take_0. }
  assert (take (length b) (drop (bufhead + length a + 1) (s_input st)) = b) as Hchunk.
  { replace (bufhead + length a + 1) with (S (bufhead + length a)) by lia.
    rewrite H2. unfold write_at.
    rewrite (cons_middle LF a b), !app_assoc, <- (app_assoc _ b).
    rewrite drop_app_length'; [apply take_app_length|].
    rewrite !length_app, length_take. simpl. lia. }
  unfold memmove. rewrite Hchunk. unfold write_at. rewrite take_0. cbn [app].
  split; [apply take_app_length|].
  rewrite length_app, length_drop. lia.
Qed.

(** ** The table given with a sentinel *)

Lemma count_commands_spec cmds n :
  count_commands cmds = Some n ↔
    (∃ c, cmds !! n = Some c ∧ name c = None)
    ∧ (∀ i c, i < n → cmds !! i = Some c → is_Some (name c)).
Proof.
  revert n. induction cmds as [|c cmds IH]; intros n.
  - simpl. split; [done|]. by intros [(? & ? & _) _].
  - cbn [count_commands]. destruct (name c) as [s|] eqn:Ec.
    + destruct n as [|n].
      * split.
        -- destruct (count_commands cmds); done.
        -- intros [(c' & Hc' & Hn) _]. simplify_eq/=.
      * transitivity (count_commands cmds = Some n).
        { destruct (count_commands cmds); simpl; split; congruence. }
        rewrite IH. split.
        -- intros [Hs Hb]. split; [done|]. intros [|i] c' Hi Hc'; simplify_eq/=; [by eexists|].
           eapply (Hb i); [lia|done].
        -- intros [Hs Hb]. split; [done|]. intros i c' Hi Hc'.
           apply (Hb (S i)); [lia|done].
    + split.
      * intros [= <-]. split; [by exists c|]. intros i c' Hi. lia.
      * intros [_ Hb]. destruct n as [|n]; [done|].
        destruct (Hb 0 c) as [? ?]; [lia|done|congruence].
Qed.

Lemma count_commands_sentinel cmds c :
  c ∈ cmds → name c = None → is_Some (count_commands cmds).
Proof.
  induction cmds as [|d cmds IH]; intros Hin Hc.
  - by apply elem_of_nil in Hin.
  - cbn [count_commands]. destruct (name d) eqn:Ed; [|done].
    apply elem_of_cons in Hin as [->|Hin]; [congruence|].
    destruct (IH Hin Hc) as [n ->]. done.
Qed.

(** C10.  For a table whose last entry has a null name, the one-argument
    constructor sets [cmd_count] to the index of the first entry with a null
    name: every entry before it has a name, and a lookup reads, and can
    return, only the entries before it. *)
Theorem sentinel_table_count cmds (c : Command) :
  last cmds = Some c → name c = None →
  ∃ sh,
    Shell_of_table cmds = Some sh
    ∧ commands sh = cmds
    ∧ cmd_count sh < length cmds
    ∧ (∃ s, cmds !! cmd_count sh = Some s ∧ name s = None)
    ∧ (∀ i e, i < cmd_count sh → cmds !! i = Some e → is_Some (name e))
    ∧ table sh = take (cmd_count sh) cmds
    ∧ (∀ key,
         bsearch (cmp key) (commands sh) (cmd_count sh) =
           bsearch (cmp key) (take (cmd_count sh) cmds) (cmd_count sh))
    ∧ (∀ key e,
         bsearch (cmp key) (commands sh) (cmd_count sh) = Some (Some e) →
         ∃ i, i < cmd_count sh ∧ cmds !! i = Some e ∧ is_Some (name e)).
Proof.
  intros Hlast Hnull.
  destruct (count_commands_sentinel cmds c) as [n Hn]; [|done|].
  { by eapply last_Some_elem_of. }
  exists (Shell_new cmds n). unfold Shell_of_table. rewrite Hn.
  pose proof (proj1 (count_commands_spec cmds n) Hn) as [(s & Hs & Hsn) Hbefore].
  cbn [Shell_new cmd_count commands mbind option_bind].
  split_and!; [done|done| |by exists s|done|done| |].
  - by eapply lookup_lt_Some.
  - intros key. unfold bsearch, bsearch_counted. by rewrite bsearch_loop_take.
  - intros key e H. unfold bsearch in H.
    destruct (bsearch_counted (cmp key) cmds n) as [[found m]|] eqn:E; simplify_eq/=.
    apply bsearch_loop_found in E as (i & Hi & He & _).
    exists i. split_and!; [lia|done|]. eapply Hbefore; [|done]. lia.
Qed.

Lemma sentinel_table_count_witness :
  ∃ sh, Shell_of_table sketch_commands = Some sh ∧ cmd_count sh = 2.
Proof.
  destruct (sentinel_table_count sketch_commands (mkCommand None None))
    as (sh & Hsh & H); [reflexivity|reflexivity|].
  exists sh. split; [exact Hsh|]. vm_compute in Hsh. by injection Hsh as <-.
Defined.

(** ** The line buffer *)

Lemma rounds_unfold n sh bufhead io :
  rounds (S n) sh bufhead io =
    if f_end sh then Some (sh, bufhead, io)
    else '(sh1, bufhead1, io1) ← loop_body sh bufhead io; rounds n sh1 bufhead1 io1.
Proof. done. Qed.

(** C5.  A read that brings no newline and fills the buffer to exactly
    [SHELL_LINE_MAX] bytes makes the round print the line-too-long message
    and the prompt and put the cursor back to the start of the buffer; the
    flags are as they were, and the loop goes on from there. *)
Theorem overflow_at_capacity sh bufhead io bytes io1 :
  length (input sh) = SHELL_LINE_MAX →
  readBytes io (SHELL_LINE_MAX - bufhead) = (bytes, io1) →
  (LF ∉ bytes) →
  bufhead + length bytes = SHELL_LINE_MAX →
  ∃ sh',
    loop_body sh bufhead io = Some (sh', 0, prompt (print line_too_long io1))
    ∧ tx (prompt (print line_too_long io1))
        = tx io ++ (LF :: lit "shell: Command line too long; discarding" ++ [LF])
            ++ lit "shell> "
    ∧ f_begin sh' = f_begin sh ∧ f_end sh' = f_end sh
    ∧ length (input sh') = SHELL_LINE_MAX
    ∧ (f_end sh = false →
       ∀ n, rounds (S n) sh bufhead io = rounds n sh' 0 (prompt (print line_too_long io1))).
Proof.
  intros Hlen Hread Hlf Hfull.
  exists (set_arrays (write_at (input sh) bufhead bytes) (argv sh) sh).
  assert (loop_body sh bufhead io =
            Some (set_arrays (write_at (input sh) bufhead bytes) (argv sh) sh, 0,
                  prompt (print line_too_long io1))) as Hbody.
  { rewrite (loop_body_no_newline sh bufhead io bytes io1) by (done || lia).
    rewrite decide_True by lia. done. }
  split_and!; [done| |done|done| |].
  - pose proof (readBytes_tx io (SHELL_LINE_MAX - bufhead)) as Htx.
    rewrite Hread in Htx. simpl in Htx. unfold prompt, print, setTimeout. simpl.
    rewrite Htx. by rewrite <- app_assoc.
  - cbn [set_arrays input]. rewrite length_write_at; lia.
  - intros Hrun n. rewrite rounds_unfold, Hrun, Hbody. done.
Qed.

Lemma overflow_at_capacity_witness :
  observe (loop_body sketch_shell 0 (serial [replicate SHELL_LINE_MAX "a"%char]))
    = Some (0, [], LF :: lit "shell: Command line too long; discarding" ++ [LF]
                     ++ lit "shell> ").
Proof.
  destruct (overflow_at_capacity sketch_shell 0
              (serial [replicate SHELL_LINE_MAX "a"%char])
              (replicate SHELL_LINE_MAX "a"%char) (serial []))
    as (sh' & Hbody & _); [reflexivity|reflexivity| |reflexivity|].
  - apply (bool_decide_unpack _). vm_compute. reflexivity.
  - rewrite Hbody. reflexivity.
Defined.

(** What one round does to the cursor. *)
Lemma cursor_step sh bufhead io sh' bufhead' io' :
  length (input sh) = SHELL_LINE_MAX → bufhead ≤ SHELL_LINE_MAX →
  loop_body sh bufhead io = Some (sh', bufhead', io') →
  let bytes := (readBytes io (SHELL_LINE_MAX - bufhead)).1 in
  bufhead + length bytes ≤ SHELL_LINE_MAX
  ∧ length (input sh') = SHELL_LINE_MAX
  ∧ bufhead' < SHELL_LINE_MAX
  ∧ match memchr (write_at (input sh) bufhead bytes) bufhead LF (length bytes) with
    | None =>
        if decide (bufhead + length bytes < SHELL_LINE_MAX)
        then bufhead' = bufhead + length bytes
        else bufhead' = 0
    | Some end_ =>
        bufhead ≤ end_ < bufhead + length bytes
        ∧ (if decide (end_ = 0) then bufhead' = 0
           else bufhead' = bufhead + length bytes - (end_ + 1))
    end.
Proof.
  intros Hlen Hb. cbv zeta.
  pose proof (readBytes_length io (SHELL_LINE_MAX - bufhead)) as Hfit.
  unfold loop_body.
  destruct (readBytes io (SHELL_LINE_MAX - bufhead)) as [bytes io1]. cbn [fst] in *.
  assert (length (write_at (input sh) bufhead bytes) = SHELL_LINE_MAX) as Hw
    by (rewrite length_write_at; lia).
  destruct (memchr _ _ _ _) as [end_|] eqn:Efind.
  - apply memchr_Some in Efind as (Hend & Hin & _).
    destruct (split_arguments_frame (write_at (input sh) bufhead bytes) (argv sh) end_ io1)
      as (H1 & _ & _ & _ & _ & H6); [done|].
    set (st := split_arguments _ _ _ _) in *.
    destruct (decide (s_argc st = 0)) as [Hz|Hnz].
    + intros [= <- <- <-]. cbn [set_arrays input].
      apply H6 in Hz. split_and!; [lia|congruence|lia|lia|lia|].
      rewrite decide_True by done. lia.
    + destruct (execute_command sh st) as [io2|]; [|done].
      cbn [mbind option_bind]. intros [= <- <- <-]. cbn [set_arrays input].
      split_and!; [lia| |lia|lia|lia|].
      2:{ rewrite decide_False; [done|]. intros He. apply Hnz. by apply H6. }
      case_decide; [|congruence].
      unfold memmove. rewrite length_write_at; [congruence|].
      rewrite length_take, length_drop. lia.
  - case_decide.
    + intros [= <- <- <-]. cbn [set_arrays input].
      split_and!; [lia|done|unfold SHELL_LINE_MAX; lia|].
      rewrite decide_False by lia. done.
    + intros [= <- <- <-]. cbn [set_arrays input].
      split_and!; [lia|done|lia|].
      rewrite decide_True by lia. done.
Qed.

(** ** The rounds are defined *)

(** A round writes the two arrays of the shell and nothing else. *)
Lemma loop_body_frame sh bufhead io sh' bufhead' io' :
  length (input sh) = SHELL_LINE_MAX → bufhead ≤ SHELL_LINE_MAX →
  loop_body sh bufhead io = Some (sh', bufhead', io') →
  stream sh' = stream sh ∧ commands sh' = commands sh ∧ cmd_count sh' = cmd_count sh
  ∧ f_begin sh' = f_begin sh ∧ f_end sh' = f_end sh
  ∧ length (argv sh') = length (argv sh).
Proof.
  intros Hlen Hb. unfold loop_body.
  pose proof (readBytes_length io (SHELL_LINE_MAX - bufhead)) as Hfit.
  destruct (readBytes io (SHELL_LINE_MAX - bufhead)) as [bytes io1]. cbn [fst] in Hfit.
  destruct (memchr _ _ _ _) as [end_|] eqn:Efind.
  - apply memchr_Some in Efind as (_ & Hin & _).
    destruct (split_arguments_frame (write_at (input sh) bufhead bytes) (argv sh) end_ io1)
      as (_ & _ & _ & Hav & _); [done|].
    case_decide.
    + by intros [= <- <- <-].
    + destruct (execute_command _ _); [|done]. by intros [= <- <- <-].
  - case_decide; by intros [= <- <- <-].
Qed.

Lemma execute_command_defined sh st :
  sorted_table sh → callable_table sh →
  0 < s_argc st → 0 < length (s_argv st) →
  is_Some (execute_command sh st).
Proof.
  intros (names & H1 & H2 & H3 & _) [_ Hcall] Hargc Hargv.
  unfold execute_command.
  destruct (arg_strings st) as [|arg0 rest] eqn:Eargs.
  { exfalso. unfold arg_strings in Eargs.
    destruct (s_argc st); [lia|]. destruct (s_argv st); [simpl in Hargv; lia|done]. }
  cbn [head mbind option_bind].
  destruct (bsearch_ends sh names H1 H2 H3 arg0) as (found & n & Hs & _).
  unfold bsearch. rewrite Hs. cbn [fmap option_fmap option_map fst mbind option_bind].
  destruct found as [c|]; [|done].
  unfold bsearch_counted in Hs. apply bsearch_loop_found in Hs as (i & Hi & Hc & _).
  rewrite Forall_forall in Hcall. destruct (Hcall c) as [_ [h ->]]; [|done].
  unfold table. eapply list_elem_of_lookup_2. apply lookup_take_Some. split; [done|lia].
Qed.

(** With a sorted table of commands that all have a handler, every round
    yields a state. *)
Lemma loop_body_defined sh bufhead io :
  sorted_table sh → callable_table sh →
  length (input sh) = SHELL_LINE_MAX → length (argv sh) = SHELL_ARG_MAX →
  bufhead ≤ SHELL_LINE_MAX →
  is_Some (loop_body sh bufhead io).
Proof.
  intros Hsorted Hcall Hlen Hargs Hb. unfold loop_body.
  pose proof (readBytes_length io (SHELL_LINE_MAX - bufhead)) as Hfit.
  destruct (readBytes io (SHELL_LINE_MAX - bufhead)) as [bytes io1]. cbn [fst] in Hfit.
  destruct (memchr _ _ _ _) as [end_|] eqn:Efind; [|by case_decide].
  apply memchr_Some in Efind as (_ & Hin & _).
  destruct (split_arguments_frame (write_at (input sh) bufhead bytes) (argv sh) end_ io1)
    as (_ & _ & _ & Hav & _); [done|].
  case_decide; [done|].
  destruct (execute_command_defined sh
              (split_arguments (write_at (input sh) bufhead bytes) (argv sh) end_ io1))
    as [io2 ->]; [done|done|lia| |done].
  rewrite Hav, Hargs. apply SHELL_ARG_MAX_pos.
Qed.

Lemma rounds_defined n : ∀ sh bufhead io,
  sorted_table sh → callable_table sh →
  length (input sh) = SHELL_LINE_MAX → length (argv sh) = SHELL_ARG_MAX →
  bufhead ≤ SHELL_LINE_MAX →
  is_Some (rounds n sh bufhead io).
Proof.
  induction n as [|n IH]; intros sh bufhead io Hsorted Hcall Hlen Hargs Hb; [done|].
  rewrite rounds_unfold. destruct (f_end sh); [done|].
  destruct (loop_body_defined sh bufhead io) as [[[sh' bufhead'] io'] Ebody]; [done..|].
  rewrite Ebody. cbn [mbind option_bind].
  destruct (loop_body_frame _ _ _ _ _ _ Hlen Hb Ebody) as (_ & Hc & Hn & _ & _ & Ha).
  destruct (cursor_step _ _ _ _ _ _ Hlen Hb Ebody) as (_ & Hl' & Hb' & _).
  apply IH; [| |done|congruence|lia].
  - destruct Hsorted as (names & H1 & H2 & H3 & H4). exists names.
    unfold table in *. rewrite Hc, Hn. done.
  - destruct Hcall as [H1 H2]. unfold callable_table, table in *. by rewrite Hc, Hn.
Qed.

(** C9.  The loop is entered with the cursor at the start of a buffer of
    [SHELL_LINE_MAX] bytes; with a sorted table of commands that have
    handlers any number of rounds yields a state.  In every state the loop
    reaches the cursor is within the buffer;
    the next read is asked for no more bytes than fit after the cursor, and
    the round that makes it leaves the cursor advanced by the bytes read (no
    newline, buffer not full), at 0 (no newline and buffer full, or newline
    at the start of the buffer), or at the number of bytes read after the
    newline. *)
Theorem cursor_within_buffer n sh io :
  length (input sh) = SHELL_LINE_MAX →
  (sorted_table sh → callable_table sh → length (argv sh) = SHELL_ARG_MAX →
   is_Some (rounds n sh 0 io))
  ∧ ∀ sh1 bufhead1 io1,
      rounds n sh 0 io = Some (sh1, bufhead1, io1) →
      bufhead1 ≤ SHELL_LINE_MAX
      ∧ length (input sh1) = SHELL_LINE_MAX
      ∧ ∀ sh2 bufhead2 io2,
          loop_body sh1 bufhead1 io1 = Some (sh2, bufhead2, io2) →
          let bytes := (readBytes io1 (SHELL_LINE_MAX - bufhead1)).1 in
          bufhead1 + length bytes ≤ SHELL_LINE_MAX
          ∧ bufhead2 ≤ SHELL_LINE_MAX
          ∧ match memchr (write_at (input sh1) bufhead1 bytes) bufhead1 LF
                    (length bytes) with
            | None =>
                if decide (bufhead1 + length bytes < SHELL_LINE_MAX)
                then bufhead2 = bufhead1 + length bytes
                else bufhead2 = 0
            | Some end_ =>
                bufhead1 ≤ end_ < bufhead1 + length bytes
                ∧ (if decide (end_ = 0) then bufhead2 = 0
                   else bufhead2 = bufhead1 + length bytes - (end_ + 1))
            end.
Proof.
  intros Hlen. split.
  { intros. apply rounds_defined; [done..|lia]. }
  intros sh1 bufhead1 io1 Hrun.
  assert (bufhead1 ≤ SHELL_LINE_MAX ∧ length (input sh1) = SHELL_LINE_MAX) as [Hb1 Hl1].
  { assert (0 ≤ SHELL_LINE_MAX) as Hb by lia. revert Hlen Hb Hrun.
    generalize 0 as bufhead. revert sh io.
    induction n as [|n IH]; intros sh io bufhead Hlen Hb.
    - by intros [= <- <- <-].
    - rewrite rounds_unfold. destruct (f_end sh); [by intros [= <- <- <-]|].
      destruct (loop_body sh bufhead io) as [[[sh' bufhead'] io']|] eqn:Ebody; [|done].
      cbn [mbind option_bind]. intros Hrun.
      destruct (cursor_step _ _ _ _ _ _ Hlen Hb Ebody) as (_ & Hl' & Hb' & _).
      eapply IH; [done| |done]. lia. }
  split_and!; [done..|].
  intros sh2 bufhead2 io2 Ebody. cbv zeta.
  destruct (cursor_step _ _ _ _ _ _ Hl1 Hb1 Ebody) as (H1 & _ & H3 & H4).
  split_and!; [done|lia|done].
Qed.

Lemma cursor_within_buffer_witness :
  ∃ sh1 bufhead1 io1,
    rounds 2 sketch_shell 0 (serial [lit "he"; lit "lp" ++ LF :: lit "ec"])
      = Some (sh1, bufhead1, io1)
    ∧ bufhead1 ≤ SHELL_LINE_MAX.
Proof.
  destruct (rounds 2 sketch_shell 0 (serial [lit "he"; lit "lp" ++ LF :: lit "ec"]))
    as [[[sh1 bufhead1] io1]|] eqn:Erun; [|by vm_compute in Erun].
  exists sh1, bufhead1, io1. split; [reflexivity|].
  exact (proj1 (proj2 (cursor_within_buffer 2 sketch_shell _ eq_refl)
                  sh1 bufhead1 io1 Erun)).
Defined.

(** ** Dispatch *)

Lemma arg_strings_cstring st s : s ∈ arg_strings st → cstring s.
Proof.
  unfold arg_strings. intros (o & -> & _)%list_elem_of_fmap_1. apply cstr_cstring.
Qed.

Lemma arg_strings_length st :
  s_argc st ≤ length (s_argv st) → length (arg_strings st) = s_argc st.
Proof. intros. unfold arg_strings. rewrite length_fmap, length_take. lia. Qed.

Lemma execute_command_hit sh st arg0 c h :
  sorted_table sh → head (arg_strings st) = Some arg0 →
  c ∈ table sh → name c = Some arg0 → entry c = Some h →
  execute_command sh st = Some (h (s_argc st) (arg_strings st) (s_io st)).2.
Proof.
  intros (names & H1 & H2 & H3 & H4%sorted_names) Hhead Hc Hname Hentry; [|done].
  unfold execute_command. rewrite Hhead. cbn [mbind option_bind].
  rewrite (bsearch_hit sh names H1 H2 H3 H4 arg0 c); [|..|done|done].
  - cbn [mbind option_bind]. by rewrite Hentry.
  - eapply arg_strings_cstring. by apply head_Some_elem_of.
Qed.

Lemma execute_command_miss sh st arg0 :
  sorted_table sh → head (arg_strings st) = Some arg0 →
  (∀ c, c ∈ table sh → name c ≠ Some arg0) →
  execute_command sh st = Some (print (no_such_command arg0) (s_io st)).
Proof.
  intros (names & H1 & H2 & H3 & _) Hhead Hno.
  unfold execute_command. rewrite Hhead. cbn [mbind option_bind].
  rewrite (bsearch_miss sh names H1 H2 H3 arg0); [done| |done].
  eapply arg_strings_cstring. by apply head_Some_elem_of.
Qed.

(** C3.  The table is sorted in strictly ascending byte-wise dictionary
    order of its names; a read completes a line whose first token is [arg0].  Then the
    search ends after at most one comparison more than the binary logarithm
    of [cmd_count]; if a command of the table is named [arg0], the round
    calls the handler of that command on the number of tokens, the tokens
    and the port, and then prints the prompt; if none is, it prints
    "shell: No such command: " followed by [arg0] and a newline, then the
    prompt.  In both cases the round ends with the flags untouched, so the
    loop goes on. *)
Theorem dispatch_by_name sh bufhead io a b io1 arg0 :
  sorted_table sh →
  length (input sh) = SHELL_LINE_MAX → length (argv sh) = SHELL_ARG_MAX →
  readBytes io (SHELL_LINE_MAX - bufhead) = (a ++ LF :: b, io1) → (LF ∉ a) →
  let st := split_arguments (write_at (input sh) bufhead (a ++ LF :: b)) (argv sh)
              (bufhead + length a) io1 in
  head (arg_strings st) = Some arg0 →
  0 < s_argc st ∧ length (arg_strings st) = s_argc st
  ∧ (∃ found n,
       bsearch_counted (cmp arg0) (commands sh) (cmd_count sh) = Some (found, n)
       ∧ n ≤ S (Nat.log2 (cmd_count sh)))
  ∧ (∀ c h, c ∈ table sh → name c = Some arg0 → entry c = Some h →
       ∃ sh', loop_body sh bufhead io
                = Some (sh', length b,
                        prompt (h (s_argc st) (arg_strings st) (s_io st)).2)
              ∧ f_begin sh' = f_begin sh ∧ f_end sh' = f_end sh)
  ∧ ((∀ c, c ∈ table sh → name c ≠ Some arg0) →
       ∃ sh', loop_body sh bufhead io
                = Some (sh', length b,
                        prompt (print (lit "shell: No such command: " ++ arg0 ++ [LF])
                                      (s_io st)))
              ∧ f_begin sh' = f_begin sh ∧ f_end sh' = f_end sh).
Proof.
  intros Hsorted Hlen Hargs Hread Hlf st Hhead.
  pose proof (readBytes_length io (SHELL_LINE_MAX - bufhead)) as Hfit.
  rewrite Hread in Hfit. cbn [fst] in Hfit.
  assert (length (a ++ LF :: b) = length a + S (length b)) as Hbytes
    by (rewrite length_app; simpl; lia).
  destruct (split_arguments_frame (write_at (input sh) bufhead (a ++ LF :: b)) (argv sh)
              (bufhead + length a) io1) as (_ & _ & _ & Hav & Hmax & Hargc).
  { rewrite length_write_at; lia. }
  fold st in Hav, Hmax, Hargc.
  assert (0 < s_argc st) as Hpos.
  { destruct (decide (s_argc st = 0)) as [Hz|]; [|lia].
    unfold arg_strings in Hhead. by rewrite Hz in Hhead. }
  pose proof (loop_body_line sh bufhead io a b io1) as Hbody.
  cbv zeta in Hbody. fold st in Hbody.
  rewrite Hbody; [|lia|lia|done|done|lia]. clear Hbody.
  split_and!.
  - done.
  - apply arg_strings_length. lia.
  - destruct Hsorted as (names & H1 & H2 & H3 & _).
    destruct (bsearch_ends sh names H1 H2 H3 arg0) as (found & n & Hs & Hn).
    exists found, n. split; [done|]. unfold halvings in Hn.
    destruct (cmd_count sh); lia.
  - intros c h Hc Hname Hentry.
    rewrite (execute_command_hit sh st arg0 c h) by done.
    cbn [mbind option_bind]. by eexists.
  - intros Hno. rewrite (execute_command_miss sh st arg0) by done.
    cbn [mbind option_bind]. by eexists.
Qed.

Lemma sketch_sorted : sorted_table sketch_shell.
Proof.
  exists [lit "echo"; lit "help"]. split_and!; [reflexivity|reflexivity| |].
  - repeat constructor; apply (bool_decide_unpack _); vm_compute; reflexivity.
  - repeat constructor; vm_compute; reflexivity.
Defined.

Lemma dispatch_by_name_witness :
  observe (loop_body sketch_shell 0 (serial [lit "help" ++ [LF]]))
    = Some (0, [], lit "help" ++ [LF] ++ lit "commands: echo help" ++ [LF] ++ lit "shell> ")
  ∧ observe (loop_body sketch_shell 0 (serial [lit "foo" ++ [LF]]))
    = Some (0, [], lit "foo" ++ [LF] ++ lit "shell: No such command: foo" ++ [LF]
                     ++ lit "shell> ").
Proof.
  split.
  - destruct (dispatch_by_name sketch_shell 0 (serial [lit "help" ++ [LF]])
                (lit "help") [] (serial []) (lit "help") sketch_sorted)
      as (_ & _ & _ & Hhit & _); [reflexivity|reflexivity|reflexivity| |reflexivity|].
    { apply (bool_decide_unpack _). vm_compute. reflexivity. }
    destruct (Hhit (mkCommand (Some (lit "help")) (Some cmdHelp)) cmdHelp)
      as (sh' & -> & _); [|reflexivity|reflexivity|reflexivity].
    apply list_elem_of_further, list_elem_of_here.
  - destruct (dispatch_by_name sketch_shell 0 (serial [lit "foo" ++ [LF]])
                (lit "foo") [] (serial []) (lit "foo") sketch_sorted)
      as (_ & _ & _ & _ & Hmiss); [reflexivity|reflexivity|reflexivity| |reflexivity|].
    { apply (bool_decide_unpack _). vm_compute. reflexivity. }
    destruct Hmiss as (sh' & -> & _); [|reflexivity].
    intros c Hc. unfold table, sketch_shell, Shell_new, sketch_commands in Hc.
    cbn [take cmd_count commands] in Hc.
    apply elem_of_cons in Hc as [->|Hc]; [discriminate|].
    apply elem_of_cons in Hc as [->|Hc]; [discriminate|].
    by apply elem_of_nil in Hc.
Defined.

(** ** Tokens *)

Lemma mark_length k : ∀ line, length (mark k line) = length line.
Proof.
  induction k as [|k IH]; intros line; [done|].
  destruct (find_byte SP line) as [q|] eqn:E.
  - apply find_byte_Some in E as (w & rest & -> & Hw & _).
    rewrite mark_space by done. rewrite !length_app. simpl. by rewrite IH.
  - simpl. by rewrite E.
Qed.

Lemma take_line buf bufhead a b :
  bufhead ≤ length buf →
  take (bufhead + length a) (write_at buf bufhead (a ++ LF :: b)) = take bufhead buf ++ a.
Proof.
  intros. unfold write_at. rewrite <- (app_assoc a), app_assoc.
  apply take_app_length'. rewrite length_app, length_take. lia.
Qed.

(** C4, as amended.  A line of text (no NUL byte) shorter than the buffer,
    with at most [SHELL_ARG_MAX] tokens, is split into exactly its tokens;
    joined again with single spaces they give the line without its last byte
    if that byte is a space, and the line itself otherwise.  Consecutive
    spaces give empty tokens: "echo a  b" is split into "echo", "a", "" and
    "b", with [argc = 4]. *)
Theorem rejoin_tokens :
  (∀ buf args end_ io,
     length buf = SHELL_LINE_MAX → end_ < SHELL_LINE_MAX →
     length args = SHELL_ARG_MAX →
     cstring (take end_ buf) →
     length (words (take end_ buf)) ≤ SHELL_ARG_MAX →
     let line := take end_ buf in
     let st := split_arguments buf args end_ io in
     s_argc st = length (arg_strings st)
     ∧ arg_strings st = words line
     ∧ join SP (arg_strings st) = chomp_space line
     ∧ (last line ≠ Some SP → join SP (arg_strings st) = line))
  ∧ s_argc (split_line (lit "echo a  b")) = 4
  ∧ arg_strings (split_line (lit "echo a  b")) = [lit "echo"; lit "a"; []; lit "b"].
Proof.
  split; [|split; vm_compute; reflexivity].
  intros buf args end_ io Hlen Hend Hargs Htext Hfew. cbv zeta.
  destruct (split_arguments_words buf args end_ io) as (H1 & H2 & _); [lia|done..|].
  cbv zeta in H1, H2.
  rewrite take_ge in H2 by done.
  split_and!.
  - rewrite H1, H2. lia.
  - done.
  - rewrite H2. apply join_words.
  - intros Hlast. rewrite H2, join_words. by apply chomp_space_id.
Qed.

Lemma rejoin_tokens_witness :
  join SP (arg_strings (split_line (lit "echo a  b"))) = lit "echo a  b".
Proof.
  refine (proj2 (proj2 (proj2 (proj1 rejoin_tokens
            (write_at (input sketch_shell) 0 (lit "echo a  b" ++ [LF]))
            (argv sketch_shell) 9 (serial []) _ _ _ _ _))) _).
  - reflexivity.
  - unfold SHELL_LINE_MAX. lia.
  - reflexivity.
  - apply (bool_decide_unpack _). vm_compute. reflexivity.
  - vm_compute. lia.
  - vm_compute. discriminate.
Defined.

(** C4, as stated, fails on a line that ends with a space: "a " is shorter
    than the buffer and has one token, "a", which joined again is not the
    line. *)
Lemma rejoin_trailing_space :
  length (lit "a ") < SHELL_LINE_MAX
  ∧ length (words (lit "a ")) ≤ SHELL_ARG_MAX
  ∧ arg_strings (split_line (lit "a ")) = [lit "a"]
  ∧ join SP (arg_strings (split_line (lit "a "))) ≠ lit "a ".
Proof.
  split_and!.
  - vm_compute. lia.
  - vm_compute. lia.
  - vm_compute. reflexivity.
  - vm_compute. discriminate.
Qed.

(** C6, as amended.  A read completes a line of text (no NUL byte) with
    more than [SHELL_ARG_MAX] tokens.  The splitting block keeps the first
    [SHELL_ARG_MAX] tokens, with [argc = SHELL_ARG_MAX]; after the echo of
    the line it prints once "Too many arguments; discarding arguments after
    #31"; in the buffer the tokens kept stand each with its terminator,
    followed by the rest of the line as it was read.  The dispatch then takes
    place on these 32 tokens: with a sorted table, a command named as the
    first token has its handler called with [argc = 32], the 32 tokens and
    the port as it is after the message, and when there is none the
    no-such-command message for the first token follows the message; either
    way the prompt is printed and the bytes read after the newline are
    kept. *)
Theorem excess_arguments_discarded sh bufhead io a b io1 :
  length (input sh) = SHELL_LINE_MAX → length (argv sh) = SHELL_ARG_MAX →
  readBytes io (SHELL_LINE_MAX - bufhead) = (a ++ LF :: b, io1) → (LF ∉ a) →
  cstring (take bufhead (input sh) ++ a) →
  SHELL_ARG_MAX < length (words (take bufhead (input sh) ++ a)) →
  let line := take bufhead (input sh) ++ a in
  let st := split_arguments (write_at (input sh) bufhead (a ++ LF :: b)) (argv sh)
              (bufhead + length a) io1 in
  let diagnostic := lit "Too many arguments; discarding arguments after #31" ++ [LF] in
  s_argc st = 32
  ∧ arg_strings st = take 32 (words line)
  ∧ s_io st = print diagnostic (print (line ++ [LF]) io1)
  ∧ (∃ rest,
       line = join SP (take 32 (words line)) ++ SP :: rest
       ∧ take (length line) (s_input st) = terminated (take 32 (words line)) ++ rest)
  ∧ loop_body sh bufhead io =
      (io2 ← execute_command sh st;
       Some (set_arrays (if decide (0 < length b)
                         then memmove (s_input st) 0 (bufhead + length a + 1) (length b)
                         else s_input st)
                        (s_argv st) sh,
             length b, prompt io2))
  ∧ (sorted_table sh → callable_table sh → is_Some (loop_body sh bufhead io))
  ∧ (sorted_table sh →
     ∃ arg0,
       head (words line) = Some arg0
       ∧ (∀ c h, c ∈ table sh → name c = Some arg0 → entry c = Some h →
            ∃ sh',
              loop_body sh bufhead io
                = Some (sh', length b,
                        prompt (h 32 (take 32 (words line))
                                  (print diagnostic (print (line ++ [LF]) io1))).2)
              ∧ take (length b) (input sh') = b
              ∧ f_end sh' = f_end sh)
       ∧ ((∀ c, c ∈ table sh → name c ≠ Some arg0) →
            ∃ sh',
              loop_body sh bufhead io
                = Some (sh', length b,
                        prompt (print (lit "shell: No such command: " ++ arg0 ++ [LF])
                                  (print diagnostic (print (line ++ [LF]) io1))))
              ∧ take (length b) (input sh') = b
              ∧ f_end sh' = f_end sh)).
Proof.
  intros Hlen Hargs Hread Hlf Htext Hmany. cbv zeta.
  pose proof (readBytes_length io (SHELL_LINE_MAX - bufhead)) as Hfit.
  rewrite Hread in Hfit. cbn [fst] in Hfit.
  assert (length (a ++ LF :: b) = length a + S (length b)) as Hbytes
    by (rewrite length_app; simpl; lia).
  assert (bufhead ≤ length (input sh)) as Hb by lia.
  pose proof (take_line (input sh) bufhead a b Hb) as Hline.
  destruct (split_arguments_words (write_at (input sh) bufhead (a ++ LF :: b)) (argv sh)
              (bufhead + length a) io1) as (H1 & H2 & H3 & H4 & _).
  { rewrite length_write_at; lia. }
  { done. }
  { by rewrite Hline. }
  cbv zeta in H1, H2, H3, H4. rewrite Hline in H1, H2, H3, H4.
  destruct (leftover_moved (input sh) bufhead a b (argv sh) io1) as [Hkept _]; [lia..|].
  cbv zeta in Hkept.
  pose proof (loop_body_line sh bufhead io a b io1) as Hbody. cbv zeta in Hbody.
  set (line := take bufhead (input sh) ++ a) in *.
  set (st := split_arguments _ _ _ _) in *.
  rewrite Nat.min_l in H1, H4 by lia. rewrite decide_True in H3 by done.
  destruct (mark_truncated 31 line Hmany) as (rest & Hr & Hm).
  assert (0 < bufhead + length a) as Hne.
  { assert (length line = bufhead + length a) as <-
      by (subst line; rewrite length_app, length_take; lia).
    destruct line; [simpl in Hmany; lia|simpl; lia]. }
  specialize (Hbody ltac:(lia) ltac:(lia) Hread Hlf Hne).
  split_and!.
  - exact H1.
  - exact H2.
  - exact H3.
  - exists rest. split; [exact Hr|].
    rewrite H4. rewrite take_app_length'; [exact Hm|]. by rewrite mark_length.
  - exact Hbody.
  - intros. apply loop_body_defined; [done..|lia].
  - intros Hsorted.
    destruct (words line) as [|arg0 ws] eqn:Ewords; [simpl in Hmany; lia|].
    exists arg0. split; [done|].
    assert (head (arg_strings st) = Some arg0) as Hhead by by rewrite H2.
    split.
    + intros c h Hc Hname Hentry. rewrite Hbody.
      rewrite (execute_command_hit sh st arg0 c h) by done.
      cbn [mbind option_bind]. rewrite H1, H2, H3. eexists. by split_and!.
    + intros Hno. rewrite Hbody.
      rewrite (execute_command_miss sh st arg0) by done.
      cbn [mbind option_bind]. rewrite H3. eexists. by split_and!.
Qed.

Lemma excess_arguments_discarded_witness :
  s_argc (split_arguments (write_at (input sketch_shell) 0 (forty_tokens ++ LF :: []))
            (argv sketch_shell) (0 + length forty_tokens) (serial [])) = 32
  ∧ observe (loop_body sketch_shell 0 (serial [forty_tokens ++ [LF]]))
    = Some (0, [],
            forty_tokens ++ [LF]
              ++ lit "Too many arguments; discarding arguments after #31" ++ [LF]
              ++ lit "shell: No such command: t" ++ [LF] ++ lit "shell> ").
Proof.
  destruct (excess_arguments_discarded sketch_shell 0
              (serial [forty_tokens ++ [LF]]) forty_tokens [] (serial []))
    as (Hargc & _ & _ & _ & _ & _ & Hdispatch).
  - reflexivity.
  - reflexivity.
  - reflexivity.
  - apply (bool_decide_unpack _). vm_compute. reflexivity.
  - apply (bool_decide_unpack _). vm_compute. reflexivity.
  - vm_compute. lia.
  - split; [exact Hargc|].
    destruct (Hdispatch sketch_sorted) as (arg0 & Harg0 & _ & Hmiss).
    assert (arg0 = lit "t") as -> by (vm_compute in Harg0; by injection Harg0 as <-).
    destruct Hmiss as (sh' & -> & _); [|reflexivity].
    clear. intros c Hc. unfold table, sketch_shell, Shell_new, sketch_commands in Hc.
    cbn [take cmd_count commands] in Hc.
    apply elem_of_cons in Hc as [->|Hc]; [by intros [=]|].
    apply elem_of_cons in Hc as [->|Hc]; [by intros [=]|].
    by apply elem_of_nil in Hc.
Defined.

(** C6, as stated, fails on a line that holds a NUL byte.  The line "a",
    NUL, "b" followed by 32 times " t" is shorter than the buffer and has 33
    tokens separated by spaces, the first being the three bytes "a", NUL,
    "b".  The splitting block counts 32 arguments, but they are "a", "b" and
    30 times "t", not the first 32 tokens of the line: a handler reading
    [argv[0]] finds "a".  Read from the port by the shell of the sketch, the
    line is echoed as "a" and the command looked up is "a". *)
Lemma excess_arguments_with_nul :
  length nul_line < SHELL_LINE_MAX
  ∧ (LF ∉ nul_line)
  ∧ length (words nul_line) = 33
  ∧ head (words nul_line) = Some (lit "a" ++ NUL :: lit "b")
  ∧ s_argc (split_line nul_line) = 32
  ∧ arg_strings (split_line nul_line)
      = lit "a" :: lit "b" :: replicate 30 (lit "t")
  ∧ arg_strings (split_line nul_line) ≠ take 32 (words nul_line)
  ∧ observe (loop_body sketch_shell 0 (serial [nul_line ++ [LF]]))
    = Some (0, [],
            lit "a" ++ [LF]
              ++ lit "Too many arguments; discarding arguments after #31" ++ [LF]
              ++ lit "shell: No such command: a" ++ [LF] ++ lit "shell> ").
Proof.
  split_and!.
  - vm_compute. lia.
  - apply (bool_decide_unpack _). vm_compute. reflexivity.
  - vm_compute. reflexivity.
  - vm_compute. reflexivity.
  - vm_compute. reflexivity.
  - vm_compute. reflexivity.
  - vm_compute. discriminate.
  - vm_compute. reflexivity.
Qed.

(** ** Bytes read after the newline *)


(** C1: the code departs from the claim when the line is empty.  One read
    brings a newline, then "help" and its newline, into the empty buffer: the
    round ends with the cursor at 0 and no prompt, the five bytes read after
    the newline are not kept as the start of the next line, and the next read
    ("x" and a newline) is stored over them: "x" is looked up, "help" never
    is.  After a first line "a" the same bytes are kept. *)
Theorem empty_line_drops_bytes_read :
  observe (rounds 1 sketch_shell 0
             (serial [LF :: lit "help" ++ [LF]; lit "x" ++ [LF]]))
    = Some (0, [lit "x" ++ [LF]], [LF])
  ∧ observe (rounds 2 sketch_shell 0
               (serial [LF :: lit "help" ++ [LF]; lit "x" ++ [LF]]))
    = Some (0, [], [LF] ++ lit "x" ++ [LF]
                     ++ lit "shell: No such command: x" ++ [LF] ++ lit "shell> ")
  ∧ observe (rounds 1 sketch_shell 0
               (serial [lit "a" ++ LF :: lit "help" ++ [LF]; lit "x" ++ [LF]]))
    = Some (5, [lit "x" ++ [LF]],
            lit "a" ++ [LF] ++ lit "shell: No such command: a" ++ [LF] ++ lit "shell> ").
Proof. split_and!; vm_compute; reflexivity. Qed.

(** ** Starting and stopping *)

(** [begin] called with [f_begin] set returns without a store and without a
    new task. *)
Lemma begin_while_running w p rest :
  f_begin (shell w) = true → todo w = CallBegin p :: rest → caller w = BeforeCall →
  caller_step w = Some (mkWorld (shell w) (ports w) (tasks w) rest BeforeCall).
Proof.
  intros Hb Ht Hc. unfold caller_step, Shell_begin, Shell_end.
  by rewrite Ht, Hc, Hb.
Qed.

(** [end] does not return while [f_begin] is set. *)
Lemma end_waits w rest :
  f_begin (shell w) = true → todo w = CallEnd :: rest → caller w = EndWaiting →
  caller_step w = Some w.
Proof.
  intros Hb Ht Hc. unfold caller_step, Shell_begin, Shell_end.
  by rewrite Ht, Hc, Hb.
Qed.

(** [end] called when the one task is at the loop test: once the task has
    seen [f_end] and cleared the two flags, [end] returns. *)
Lemma end_while_running sh ps bufhead rest :
  f_begin sh = true →
  run [Caller; Caller; Task 0; Task 0; Task 0; Caller]
      (mkWorld sh ps [AtWhile bufhead] (CallEnd :: rest) BeforeCall)
    = Some (mkWorld (set_f_begin false (set_f_end false (set_f_end true sh))) ps
                    [AtDelete] rest BeforeCall).
Proof.
  intros Hb.
  cbn [run step caller_step Shell_begin Shell_end todo caller shell ports tasks
       mbind option_bind].
  cbn [set_f_end f_begin]. rewrite Hb. by cbn.
Qed.

(** [begin] called while [f_begin] is clear, whatever tasks exist, records
    the port and creates a task. *)
Lemma begin_while_f_begin_clear w p rest :
  f_begin (shell w) = false → todo w = CallBegin p :: rest → caller w = BeforeCall →
  run [Caller; Caller; Caller] w
    = Some (mkWorld (set_stream (Some p) (shell w)) (ports w)
                    (tasks w ++ [AtEntry]) rest BeforeCall).
Proof.
  intros Hb Ht Hc. destruct w as [sh ps ts td c]. simpl in *. subst.
  cbn [run step caller_step Shell_begin Shell_end todo caller shell ports tasks
       mbind option_bind].
  rewrite Hb. by cbn.
Qed.

(** [end] called while [f_begin] is clear, whatever tasks exist, sets
    [f_end] and returns. *)
Lemma end_while_f_begin_clear w rest :
  f_begin (shell w) = false → todo w = CallEnd :: rest → caller w = BeforeCall →
  run [Caller; Caller] w
    = Some (mkWorld (set_f_end true (shell w)) (ports w) (tasks w) rest BeforeCall).
Proof.
  intros Hb Ht Hc. destruct w as [sh ps ts td c]. simpl in *. subst.
  cbn [run step caller_step Shell_begin Shell_end todo caller shell ports tasks
       mbind option_bind].
  cbn [set_f_end f_begin]. rewrite Hb. by cbn.
Qed.

(** C2: the code departs from the claim.  [end] called on a shell that was
    never started returns with [f_end] set; the [begin] that follows creates
    a task that prints the prompt, finds [f_end] set at its first loop test,
    clears the flags and deletes itself: the command waiting on the port is
    never read. *)
Theorem end_while_idle_leaves_stop_request :
  lifecycle (run [Caller; Caller]
               (sketch_world [CallEnd; CallBegin 0] [serial [lit "help" ++ [LF]]]))
    = Some (false, true, None, [], [CallBegin 0], [([lit "help" ++ [LF]], [])])
  ∧ lifecycle (run (replicate 5 Caller ++ replicate 6 (Task 0))
                 (sketch_world [CallEnd; CallBegin 0] [serial [lit "help" ++ [LF]]]))
    = Some (false, false, Some 0, [Deleted], [],
            [([lit "help" ++ [LF]], lit "shell> ")])
  ∧ lifecycle (run (replicate 3 Caller ++ replicate 3 (Task 0))
                 (sketch_world [CallBegin 0] [serial [lit "help" ++ [LF]]]))
    = Some (true, false, Some 0, [AtWhile 0], [],
            [([], lit "shell> " ++ lit "help" ++ [LF]
                    ++ lit "commands: echo help" ++ [LF] ++ lit "shell> ")]).
Proof. split_and!; vm_compute; reflexivity. Qed.

(** C7: the code departs from the claim.  A second [begin] made before the
    task of the first has stored [f_begin] passes the test of [f_begin],
    records the other port and creates a second task. *)
Theorem second_begin_before_task_runs :
  lifecycle (run (replicate 6 Caller)
               (sketch_world [CallBegin 0; CallBegin 1] [serial []; serial []]))
    = Some (false, false, Some 1, [AtEntry; AtEntry], [], [([], []); ([], [])])
  ∧ lifecycle (run (replicate 3 Caller ++ [Task 0; Caller])
                 (sketch_world [CallBegin 0; CallBegin 1] [serial []; serial []]))
    = Some (true, false, Some 0, [AtPrompt], [], [([], []); ([], [])]).
Proof. split_and!; vm_compute; reflexivity. Qed.

(** C8: the code departs from the claim.  [end] called after [begin], before
    the task created has stored [f_begin], finds [f_begin] clear and returns
    at once: the task has not started, let alone seen the request, and runs
    afterwards. *)
Theorem end_returns_before_task_starts :
  lifecycle (run (replicate 5 Caller)
               (sketch_world [CallBegin 0; CallEnd] [serial [lit "help" ++ [LF]]]))
    = Some (false, true, Some 0, [AtEntry], [], [([lit "help" ++ [LF]], [])])
  ∧ lifecycle (run (replicate 5 Caller ++ replicate 2 (Task 0))
                 (sketch_world [CallBegin 0; CallEnd] [serial [lit "help" ++ [LF]]]))
    = Some (true, true, Some 0, [AtWhile 0], [],
            [([lit "help" ++ [LF]], lit "shell> ")]).
Proof. split_and!; vm_compute; reflexivity. Qed.

(** * Further properties of the code *)

(** ** Splitting a line *)

(** X1.  A line of text (no NUL byte) shorter than the buffer is split into
    its first [SHELL_ARG_MAX] tokens, [argc] being their number; what is
    written to the port is the line and a newline, followed by the
    too-many-arguments message exactly when the line has more than
    [SHELL_ARG_MAX] tokens; nothing is read from the port. *)
Theorem split_text_line buf args end_ io :
  length buf = SHELL_LINE_MAX → end_ < SHELL_LINE_MAX →
  length args = SHELL_ARG_MAX → cstring (take end_ buf) →
  let line := take end_ buf in
  let st := split_arguments buf args end_ io in
  s_argc st = SHELL_ARG_MAX `min` length (words line)
  ∧ arg_strings st = take SHELL_ARG_MAX (words line)
  ∧ tx (s_io st)
      = tx io ++ line ++ [LF]
          ++ (if decide (length (words line) ≤ SHELL_ARG_MAX) then []
              else too_many_arguments)
  ∧ rx (s_io st) = rx io.
Proof.
  intros Hlen Hend Hargs Htext. cbv zeta.
  destruct (split_arguments_words buf args end_ io) as (H1 & H2 & H3 & _);
    [lia|done..|].
  cbv zeta in H1, H2, H3. split_and!; [done|done|..].
  - rewrite H3. destruct (decide (SHELL_ARG_MAX < _)), (decide (_ ≤ SHELL_ARG_MAX));
      try lia; simpl; by rewrite <- ?app_assoc, ?app_nil_r.
  - rewrite H3. by case_decide.
Qed.

Lemma split_text_line_witness :
  arg_strings (split_line (lit "echo a  b")) = [lit "echo"; lit "a"; []; lit "b"].
Proof.
  refine (proj1 (proj2 (split_text_line
            (write_at (input sketch_shell) 0 (lit "echo a  b" ++ [LF]))
            (argv sketch_shell) 9 (serial []) _ _ _ _))).
  - reflexivity.
  - unfold SHELL_LINE_MAX. lia.
  - reflexivity.
  - apply (bool_decide_unpack _). vm_compute. reflexivity.
Defined.

Lemma split_loop_writes fuel : ∀ end_ i st j,
  let st' := split_loop fuel end_ i st in
  s_input st' !! j = s_input st !! j
  ∨ (i ≤ j < end_ ∧ s_input st !! j = Some SP ∧ s_input st' !! j = Some NUL).
Proof.
  induction fuel as [|fuel IH]; intros end_ i st j; cbv zeta; [by left|].
  rewrite split_loop_unfold.
  destruct (decide (i < end_)); [|by left].
  destruct (decide (s_argc st < SHELL_ARG_MAX)); [|by left].
  cbv zeta.
  set (input1 := match memchr _ _ _ _ with Some _ => _ | None => _ end).
  set (st1 := mkSplit input1 _ _ _).
  destruct (IH end_ (i + strlen input1 i + 1) st1 j) as [Heq|(Hj & Hsp & Hnul)];
    cbn [s_input st1] in *; subst input1.
  - rewrite Heq. destruct (memchr _ _ _ _) as [p|] eqn:E; [|by left].
    apply memchr_Some in E as (Hp & Hin & Hsp).
    destruct (decide (j = p)) as [->|Hne].
    + right. split_and!; [lia..|done|]. by apply list_lookup_insert_eq.
    + left. by apply list_lookup_insert_ne.
  - right. split_and!; [lia..| |done].
    destruct (memchr _ _ _ _) as [p|] eqn:E; [|done].
    destruct (decide (j = p)) as [->|Hne].
    + apply memchr_Some in E as (_ & Hin & _).
      rewrite list_lookup_insert_eq in Hsp by done. by simplify_eq.
    + by rewrite list_lookup_insert_ne in Hsp.
Qed.

(** X2.  Whatever bytes the line holds, splitting it stores a NUL in place
    of the newline and changes no other byte of the buffer, except spaces
    of the line that it turns into NUL; the buffer keeps its length. *)
Theorem split_writes_terminators_only buf args end_ io :
  end_ < length buf →
  let st := split_arguments buf args end_ io in
  length (s_input st) = length buf
  ∧ s_input st !! end_ = Some NUL
  ∧ ∀ j, j ≠ end_ →
      s_input st !! j = buf !! j
      ∨ (j < end_ ∧ buf !! j = Some SP ∧ s_input st !! j = Some NUL).
Proof.
  intros Hend. cbv zeta.
  destruct (split_arguments_frame buf args end_ io Hend) as (H1 & _ & H3 & _).
  split_and!; [done..|]. intros j Hj. unfold split_arguments.
  set (io1 := print _ io).
  destruct (split_loop_writes end_ end_ 0 (mkSplit (<[end_ := NUL]> buf) args 0 io1) j)
    as [Heq|(Hlt & Hsp & Hnul)]; cbn [s_input] in *.
  - left. rewrite Heq. by apply list_lookup_insert_ne.
  - right. rewrite list_lookup_insert_ne in Hsp by done. split_and!; [lia|done..].
Qed.

Lemma split_writes_terminators_only_witness :
  s_input (split_line (lit "echo a  b")) !! 9 = Some NUL
  ∧ s_input (split_line (lit "echo a  b")) !! 4 = Some NUL.
Proof.
  assert (9 < length (write_at (input sketch_shell) 0 (lit "echo a  b" ++ [LF]))) as Hlt
    by (vm_compute; lia).
  destruct (split_writes_terminators_only
              (write_at (input sketch_shell) 0 (lit "echo a  b" ++ [LF]))
              (argv sketch_shell) 9 (serial []) Hlt) as (_ & Hend & Hother).
  split; [exact Hend|].
  destruct (Hother 4) as [Heq|(_ & _ & Hnul)]; [lia| |exact Hnul].
  exfalso. vm_compute in Heq. discriminate.
Defined.

Lemma until_nul_of_app a x :
  ∃ post,
    a ++ NUL :: x = until_nul (a ++ NUL :: x) ++ NUL :: post
    ∧ length (until_nul (a ++ NUL :: x)) ≤ length a
    ∧ ∀ c, c ∈ until_nul (a ++ NUL :: x) → c ∈ a.
Proof.
  induction a as [|c a (post & IH1 & IH2 & IH3)].
  - exists x. split_and!; [done|simpl; lia|]. intros c Hc. by apply elem_of_nil in Hc.
  - change (until_nul ((c :: a) ++ NUL :: x))
      with (if decide (c = NUL) then [] else c :: until_nul (a ++ NUL :: x)).
    destruct (decide (c = NUL)) as [->|Hc].
    + exists (a ++ NUL :: x). split_and!; [done|simpl; lia|].
      intros c Hc. by apply elem_of_nil in Hc.
    + exists post. split_and!.
      * rewrite <- !app_comm_cons. by rewrite <- IH1.
      * simpl. lia.
      * intros d [->|Hd]%elem_of_cons; [left|right; by apply IH3].
Qed.

(** The round of the splitting loop entered at [i]: after the store of the
    terminator, the string at [i] ends inside the line and holds no space. *)
Lemma new_token buf i end_ :
  i < end_ → end_ < length buf → buf !! end_ = Some NUL →
  let input1 :=
    match memchr buf i SP (end_ - i) with
    | Some space => <[space := NUL]> buf
    | None => buf
    end in
  length input1 = length buf ∧ input1 !! end_ = Some NUL
  ∧ ∃ w post,
      input1 = take i buf ++ w ++ NUL :: post
      ∧ cstr input1 i = w ∧ i + length w ≤ end_ ∧ (NUL ∉ w) ∧ (SP ∉ w).
Proof.
  intros Hi Hend Hnul. cbv zeta.
  set (pre := take i buf). set (l := take (end_ - i) (drop i buf)).
  assert (length pre = i) as Hpre by (subst pre; rewrite length_take; lia).
  assert (length l = end_ - i) as Hl by (subst l; rewrite length_take, length_drop; lia).
  assert (buf = pre ++ l ++ NUL :: drop (S end_) buf) as Hbuf.
  { subst pre l. rewrite <- (take_drop i buf) at 1. f_equal.
    rewrite <- (take_drop (end_ - i) (drop i buf)) at 1. f_equal.
    rewrite drop_drop. replace (i + (end_ - i)) with end_ by lia.
    by apply drop_S. }
  assert (∃ a x, (match memchr buf i SP (end_ - i) with
                  | Some space => <[space := NUL]> buf
                  | None => buf
                  end) = pre ++ a ++ NUL :: x
                 ∧ length a ≤ end_ - i ∧ (SP ∉ a)) as (a & x & Heq & Hlen & Hsp).
  { unfold memchr. fold l. destruct (find_byte SP l) as [k|] eqn:E; simpl.
    - apply find_byte_Some in E as (a & b & El & Ha & <-).
      exists a, (b ++ NUL :: drop (S end_) buf). split_and!; [|rewrite El, length_app in Hl; lia|done].
      rewrite Hbuf at 1. rewrite El, <- Hpre. rewrite <- (app_assoc a), <- app_comm_cons.
      apply insert_middle.
    - apply find_byte_None in E. exists l, (drop (S end_) buf).
      split_and!; [done|lia|done]. }
  rewrite Heq.
  destruct (until_nul_of_app a x) as (post & H1 & H2 & H3).
  split_and!.
  - rewrite <- Heq. destruct (memchr _ _ _ _); [apply length_insert|done].
  - rewrite <- Heq. destruct (memchr _ _ _ _) as [p|] eqn:E; [|done].
    apply memchr_Some in E as (? & _). rewrite list_lookup_insert_ne; [done|lia].
  - exists (until_nul (a ++ NUL :: x)), post. split_and!.
    + by rewrite <- H1.
    + unfold cstr. by rewrite drop_app_length'.
    + lia.
    + apply until_nul_cstring.
    + intros Hc. by apply Hsp, H3.
Qed.

Lemma token_at_insert buf end_ bound o p x :
  token_at buf end_ bound o → bound ≤ p → token_at (<[p := x]> buf) end_ bound o.
Proof.
  intros (pre & w & post & -> & Ho & H1 & H2 & H3 & H4 & H5) Hp.
  exists pre, w, (<[p - length (pre ++ w ++ [NUL]) := x]> post).
  split_and!; [|done..].
  replace (pre ++ w ++ NUL :: post) with ((pre ++ w ++ [NUL]) ++ post)
    by (by rewrite <- !app_assoc).
  rewrite insert_app_r_alt; [by rewrite <- !app_assoc|].
  rewrite !length_app. simpl. lia.
Qed.

Lemma token_at_bound buf end_ bound bound' o :
  token_at buf end_ bound o → bound ≤ bound' → token_at buf end_ bound' o.
Proof.
  intros (pre & w & post & -> & Ho & H1 & H2 & H3 & H4 & H5) Hb.
  exists pre, w, post. split_and!; [done..|lia|done|done].
Qed.

Lemma split_loop_tokens fuel : ∀ end_ i st,
  end_ < length (s_input st) → s_input st !! end_ = Some NUL →
  length (s_argv st) = SHELL_ARG_MAX →
  tokens_so_far end_ i st →
  tokens_so_far end_ (S end_) (split_loop fuel end_ i st).
Proof.
  assert (∀ end_ i st, tokens_so_far end_ i st → tokens_so_far end_ (S end_) st) as Hdone.
  { intros end_ i st H k Hk. destruct (H k Hk) as (o & Ho & pre & w & post & Ht).
    exists o. split; [done|]. exists pre, w, post. destruct_and!. split_and!; [done..|lia|done|done]. }
  induction fuel as [|fuel IH]; intros end_ i st Hend Hnul Hargs Hinv; [by eapply Hdone|].
  rewrite split_loop_unfold.
  destruct (decide (i < end_)) as [Hi|]; [|by eapply Hdone].
  destruct (decide (s_argc st < SHELL_ARG_MAX)) as [Hroom|]; [|by eapply Hdone].
  cbv zeta.
  destruct (new_token (s_input st) i end_ Hi Hend Hnul)
    as (Hlen1 & Hnul1 & w & post & Hin1 & Hw & Hfit & Hwn & Hws).
  cbv zeta in Hlen1, Hnul1, Hin1, Hw.
  apply IH; cbn [s_input s_argv s_argc]; [lia|done|by rewrite length_insert|].
  intros k Hk. cbn [s_input s_argv s_argc] in *.
  destruct (decide (k = s_argc st)) as [->|Hne].
  - exists i. split; [apply list_lookup_insert_eq; lia|].
    exists (take i (s_input st)), w, post. unfold strlen. rewrite Hw.
    split_and!; [done|rewrite length_take; lia|done|done|lia|done|done].
  - destruct (Hinv k) as (o & Ho & Ht); [lia|].
    exists o. split; [by rewrite list_lookup_insert_ne|].
    apply (token_at_bound _ _ i); [|lia].
    destruct (memchr (s_input st) i SP (end_ - i)) as [p|] eqn:E; [|done].
    apply memchr_Some in E as (? & _). apply token_at_insert; [done|lia].
Qed.

(** X3.  Whatever bytes the line holds, every argument the splitting counts
    is a string that starts inside the line and ends before or at the
    terminator stored in place of the newline; it holds no space (and, being
    a C string, no NUL). *)
Theorem tokens_inside_line buf args end_ io :
  end_ < length buf → length args = SHELL_ARG_MAX →
  let st := split_arguments buf args end_ io in
  ∀ k, k < s_argc st →
    ∃ o, s_argv st !! k = Some o
         ∧ o < end_
         ∧ o + strlen (s_input st) o ≤ end_
         ∧ (SP ∉ cstr (s_input st) o)
         ∧ (NUL ∉ cstr (s_input st) o).
Proof.
  intros Hend Hargs. cbv zeta. unfold split_arguments.
  set (io1 := print _ io). intros k Hk.
  destruct (split_loop_tokens end_ end_ 0 (mkSplit (<[end_ := NUL]> buf) args 0 io1))
    with (k := k) as (o & Ho & pre & w & post & Hbuf & Hpre & H1 & H2 & _ & H4 & H5);
    cbn [s_input s_argv s_argc]; [by rewrite length_insert| |done| |done|].
  - by apply list_lookup_insert_eq.
  - intros k' Hk'. cbn [s_argc] in Hk'. lia.
  - exists o. unfold strlen. rewrite Hbuf, <- Hpre, cstr_at by done.
    split_and!; [by rewrite Hpre|lia|lia|done|done].
Qed.

Lemma tokens_inside_line_witness :
  ∃ o, s_argv (split_line (lit "echo a  b")) !! 3 = Some o ∧ o < 9.
Proof.
  destruct (tokens_inside_line
              (write_at (input sketch_shell) 0 (lit "echo a  b" ++ [LF]))
              (argv sketch_shell) 9 (serial [])) with (k := 3)
    as (o & Ho & Hlt & _).
  - vm_compute. lia.
  - reflexivity.
  - vm_compute. lia.
  - exists o. split; [exact Ho|exact Hlt].
Defined.

(** ** From the bytes sent to the arguments received *)

Lemma join_cons sep w w' ws :
  join sep (w :: w' :: ws) = w ++ sep :: join sep (w' :: ws).
Proof. done. Qed.

Lemma words_join ws :
  Forall (λ w, SP ∉ w) ws → last ws ≠ Some [] → words (join SP ws) = ws.
Proof.
  induction ws as [|w ws IH]; intros Hsp Hlast; [done|].
  apply Forall_cons in Hsp as [Hw Hsp].
  destruct ws as [|w' ws].
  - simpl. apply words_no_space; [done|]. intros ->. by apply Hlast.
  - rewrite join_cons, words_app_space by done. f_equal. apply IH; [done|].
    by rewrite last_cons_cons in Hlast.
Qed.

Lemma join_not_elem c ws :
  c ≠ SP → Forall (λ w, c ∉ w) ws → c ∉ join SP ws.
Proof.
  intros Hc. induction ws as [|w ws IH]; intros Hall; [apply not_elem_of_nil|].
  apply Forall_cons in Hall as [Hw Hall].
  destruct ws as [|w' ws]; [done|].
  rewrite join_cons. intros [?|[?|?]%elem_of_cons]%elem_of_app; [done|done|].
  by apply IH.
Qed.

(** X4.  The peer sends, to a shell whose buffer is empty, a command name
    and arguments joined by single spaces and ended by a newline; none of
    these strings holds a space, a NUL or a newline, the last one is not
    empty, and there are at most [SHELL_ARG_MAX] of them.  If the sorted
    table has a command of that name, the round calls its handler with
    [argc] the number of strings, [argv] exactly these strings, and the port
    as it is after the echo of the line; then it prints the prompt and keeps
    the bytes that followed the newline. *)
Theorem arguments_reach_handler sh io n args b io1 c h :
  sorted_table sh →
  length (input sh) = SHELL_LINE_MAX → length (argv sh) = SHELL_ARG_MAX →
  Forall (λ w, (SP ∉ w) ∧ (NUL ∉ w) ∧ (LF ∉ w)) (n :: args) →
  last (n :: args) ≠ Some [] →
  length (n :: args) ≤ SHELL_ARG_MAX →
  readBytes io (SHELL_LINE_MAX - 0) = (join SP (n :: args) ++ LF :: b, io1) →
  c ∈ table sh → name c = Some n → entry c = Some h →
  ∃ sh',
    loop_body sh 0 io
      = Some (sh', length b,
              prompt (h (length (n :: args)) (n :: args)
                        (print (join SP (n :: args) ++ [LF]) io1)).2)
    ∧ take (length b) (input sh') = b.
Proof.
  intros Hsorted Hlen Hargs Hall Hlast Hfew Hread Hc Hname Hentry.
  set (ws := n :: args) in *. set (line := join SP ws) in *.
  assert (Forall (λ w, SP ∉ w) ws) as Hsp
    by (eapply Forall_impl; [exact Hall|]; by intros w (? & ? & ?)).
  assert (LF ∉ line) as Hlf.
  { apply join_not_elem; [done|]. eapply Forall_impl; [exact Hall|].
    by intros w (? & ? & ?). }
  assert (cstring line) as Htext.
  { apply join_not_elem; [done|]. eapply Forall_impl; [exact Hall|].
    by intros w (? & ? & ?). }
  assert (words line = ws) as Hwords by by apply words_join.
  assert (0 < length line) as Hne.
  { destruct line; [done|simpl; lia]. }
  pose proof (readBytes_length io (SHELL_LINE_MAX - 0)) as Hfit.
  rewrite Hread in Hfit. cbn [fst] in Hfit.
  assert (length (line ++ LF :: b) = length line + S (length b)) as Hbytes
    by (rewrite length_app; simpl; lia).
  pose proof (take_line (input sh) 0 line b ltac:(lia)) as Hline.
  rewrite take_0 in Hline. cbn [app] in Hline.
  destruct (split_arguments_words (write_at (input sh) 0 (line ++ LF :: b)) (argv sh)
              (0 + length line) io1) as (H1 & H2 & H3 & _).
  { rewrite length_write_at; lia. }
  { done. }
  { by rewrite Hline. }
  cbv zeta in H1, H2, H3. rewrite Hline, Hwords in H1, H2, H3.
  rewrite Nat.min_r in H1 by done. rewrite take_ge in H2 by done.
  rewrite decide_False in H3 by lia.
  pose proof (loop_body_line sh 0 io line b io1) as Hbody. cbv zeta in Hbody.
  rewrite Hbody; [|lia|lia|done|done|lia]. clear Hbody.
  rewrite (execute_command_hit sh _ n c h); [|done|by rewrite H2|done..].
  cbn [mbind option_bind]. rewrite H1, H2, H3. eexists. split; [done|].
  cbn [set_arrays input].
  apply (leftover_moved (input sh) 0 line b (argv sh) io1); lia.
Qed.

Lemma arguments_reach_handler_witness :
  observe (loop_body sketch_shell 0 (serial [lit "echo a b" ++ LF :: lit "he"]))
    = Some (2, [], lit "echo a b" ++ [LF] ++ lit "a b" ++ [LF] ++ lit "shell> ").
Proof.
  destruct (arguments_reach_handler sketch_shell
              (serial [lit "echo a b" ++ LF :: lit "he"])
              (lit "echo") [lit "a"; lit "b"] (lit "he") (serial [])
              (mkCommand (Some (lit "echo")) (Some cmdEcho)) cmdEcho sketch_sorted)
    as (sh' & -> & _).
  - reflexivity.
  - reflexivity.
  - repeat constructor; apply (bool_decide_unpack _); vm_compute; reflexivity.
  - vm_compute. discriminate.
  - vm_compute. lia.
  - reflexivity.
  - apply list_elem_of_here.
  - reflexivity.
  - reflexivity.
  - reflexivity.
Defined.

(** ** Lines across reads *)






Lemma set_arrays_id sh : set_arrays (input sh) (argv sh) sh = sh.
Proof. by destruct sh. Qed.

(** X7.  A read that times out without a byte, made with room left in the
    buffer, leaves the shell, its buffer and the cursor as they were and
    prints nothing. *)
Theorem idle_read_changes_nothing sh bufhead io io1 :
  length (input sh) = SHELL_LINE_MAX → bufhead < SHELL_LINE_MAX →
  readBytes io (SHELL_LINE_MAX - bufhead) = ([], io1) →
  loop_body sh bufhead io = Some (sh, bufhead, io1) ∧ tx io1 = tx io.
Proof.
  intros Hlen Hb Hread. split.
  - rewrite (loop_body_no_newline sh bufhead io [] io1);
      [|lia|done|apply not_elem_of_nil].
    cbn [length]. rewrite Nat.add_0_r. rewrite decide_False by lia.
    unfold write_at. cbn [length app]. rewrite Nat.add_0_r, take_drop.
    by rewrite set_arrays_id.
  - pose proof (readBytes_tx io (SHELL_LINE_MAX - bufhead)) as Htx.
    by rewrite Hread in Htx.
Qed.

Lemma idle_read_changes_nothing_witness :
  loop_body sketch_shell 5 (serial [[]; lit "x"])
    = Some (sketch_shell, 5, serial [lit "x"]).
Proof.
  refine (proj1 (idle_read_changes_nothing sketch_shell 5 (serial [[]; lit "x"])
                   (serial [lit "x"]) _ _ _)).
  - reflexivity.
  - unfold SHELL_LINE_MAX. lia.
  - reflexivity.
Defined.

(** X8.  A read into the empty buffer whose first byte is the newline: the
    line is empty; the round prints a newline and nothing else, calls no
    handler whatever the table holds, and ends with the cursor at 0 and
    [argv] untouched. *)
Theorem empty_line_calls_nothing sh io b io1 :
  length (input sh) = SHELL_LINE_MAX →
  readBytes io (SHELL_LINE_MAX - 0) = (LF :: b, io1) →
  ∃ sh' io',
    loop_body sh 0 io = Some (sh', 0, io')
    ∧ tx io' = tx io ++ [LF] ∧ rx io' = rx io1 ∧ timeout io' = timeout io
    ∧ argv sh' = argv sh ∧ input sh' !! 0 = Some NUL
    ∧ commands sh' = commands sh.
Proof.
  intros Hlen Hread.
  assert (0 < length (input sh)) as Hpos by (rewrite Hlen; unfold SHELL_LINE_MAX; lia).
  rewrite (loop_body_empty_line sh io b io1 Hpos Hread).
  eexists _, _. split; [done|]. cbn [set_arrays argv input commands print tx rx timeout].
  pose proof (readBytes_tx io (SHELL_LINE_MAX - 0)) as Htx. rewrite Hread in Htx.
  cbn [snd] in Htx. rewrite Htx.
  assert (timeout io1 = timeout io) as Hto.
  { unfold readBytes in Hread. destruct (rx io); by simplify_eq/=. }
  split_and!; done.
Qed.

Lemma empty_line_calls_nothing_witness :
  observe (loop_body sketch_shell 0 (serial [[LF]])) = Some (0, [], [LF]).
Proof.
  destruct (empty_line_calls_nothing sketch_shell (serial [[LF]]) [] (serial []))
    as (sh' & io' & -> & Htx & Hrx & _); [reflexivity|reflexivity|].
  unfold observe. cbn [fmap option_fmap option_map]. by rewrite Htx, Hrx.
Defined.



(** ** Looking up, whatever the table *)

(** X10.  Whatever the table holds, sorted or not, the block that executes
    a command either prints the no-such-command message for the first
    argument, or calls the handler of one of the first [cmd_count] commands,
    and then of one whose name compares equal to the first argument (is the
    first argument, when the name is a C string): no command runs under
    another name. *)
Theorem dispatch_only_by_equal_name sh st io' :
  execute_command sh st = Some io' →
  ∃ arg0,
    head (arg_strings st) = Some arg0
    ∧ (io' = print (no_such_command arg0) (s_io st)
       ∨ ∃ i c n h,
           i < cmd_count sh ∧ commands sh !! i = Some c
           ∧ name c = Some n ∧ strcmp arg0 n = 0%Z ∧ (cstring n → n = arg0)
           ∧ entry c = Some h
           ∧ io' = (h (s_argc st) (arg_strings st) (s_io st)).2).
Proof.
  unfold execute_command. intros H.
  destruct (head (arg_strings st)) as [arg0|] eqn:Ehead; [|done].
  cbn [mbind option_bind] in H. exists arg0. split; [done|].
  unfold bsearch in H.
  destruct (bsearch_counted (cmp arg0) (commands sh) (cmd_count sh))
    as [[found m]|] eqn:Es; [|done].
  cbn [fmap option_fmap option_map fst mbind option_bind] in H.
  destruct found as [c|]; [|left; by injection H as <-].
  right. unfold bsearch_counted in Es.
  apply bsearch_loop_found in Es as (i & Hi & Hc & Hz).
  unfold cmp in Hz. destruct (name c) as [n|] eqn:En; [|done].
  destruct (entry c) as [h|] eqn:Eh; [|done].
  cbn [mbind option_bind] in H. injection H as <-. simplify_eq/=.
  exists i, c, n, h. split_and!; [lia|done..| |done|done].
  intros Hn. symmetry. apply strcmp_eq; [|done..].
  eapply arg_strings_cstring. by apply head_Some_elem_of.
Qed.

Lemma dispatch_only_by_equal_name_witness :
  ∃ arg0, head (arg_strings (split_line (lit "help"))) = Some arg0.
Proof.
  destruct (dispatch_only_by_equal_name sketch_shell (split_line (lit "help"))
              (cmdHelp 1 [lit "help"] (print (lit "help" ++ [LF]) (serial []))).2)
    as (arg0 & Hhead & _); [reflexivity|].
  by exists arg0.
Defined.

(** X11.  On a key and a name that are C strings, [cmp] gives 0 exactly
    when the two are equal, a negative number exactly when the key stands
    before the name in byte-wise dictionary order, and a positive one
    exactly when it stands after it. *)
Theorem cmp_decides_dictionary_order key c n :
  cstring key → name c = Some n → cstring n →
  ∃ z, cmp key c = Some z
       ∧ (z = 0%Z ↔ key = n)
       ∧ ((z < 0)%Z ↔ bytes_lt key n)
       ∧ ((0 < z)%Z ↔ bytes_lt n key).
Proof.
  intros Hkey Hname Hn. exists (strcmp key n). unfold cmp. rewrite Hname.
  split_and!; [done| | |].
  - split; [by apply strcmp_eq|]. intros ->. apply strcmp_refl.
  - by apply strcmp_bytes_lt.
  - rewrite <- (strcmp_bytes_lt n key) by done. unfold name_lt.
    rewrite (strcmp_antisym key n). lia.
Qed.

Lemma cmp_decides_dictionary_order_witness :
  bytes_lt (lit "echo") (lit "help").
Proof.
  destruct (cmp_decides_dictionary_order (lit "echo")
              (mkCommand (Some (lit "help")) (Some cmdHelp)) (lit "help"))
    as (z & Hz & _ & Hlt & _).
  - apply (bool_decide_unpack _). vm_compute. reflexivity.
  - reflexivity.
  - apply (bool_decide_unpack _). vm_compute. reflexivity.
  - apply Hlt. vm_compute in Hz. injection Hz as <-. reflexivity.
Defined.

(** ** The constructor and a table without sentinel *)

(** X12.  The scan of the one-argument constructor finds no count exactly
    when no entry of the array has a null name (it then reads past the
    array); when it finds one, it is the index of the first entry with a
    null name, wherever in the array that entry stands, and the entries after
    it are not counted. *)
Theorem sentinel_scan cmds :
  (count_commands cmds = None ↔ Forall (λ c, is_Some (name c)) cmds)
  ∧ (Shell_of_table cmds = None ↔ Forall (λ c, is_Some (name c)) cmds)
  ∧ ∀ n, count_commands cmds = Some n →
      n < length cmds
      ∧ (∃ c, cmds !! n = Some c ∧ name c = None)
      ∧ Forall (λ c, is_Some (name c)) (take n cmds).
Proof.
  assert (count_commands cmds = None ↔ Forall (λ c, is_Some (name c)) cmds) as Hnone.
  { induction cmds as [|c cmds IH]; [done|].
    cbn [count_commands]. rewrite Forall_cons. destruct (name c) as [s|] eqn:Ec.
    - destruct (count_commands cmds); simpl.
      + split; [done|]. intros [_ H]. by apply IH in H.
      + split; [|done]. intros _. split; [by eexists|]. by apply IH.
    - split; [done|]. by intros [[? ?] _]. }
  split_and!; [done| |].
  - rewrite <- Hnone. unfold Shell_of_table.
    destruct (count_commands cmds); simpl; split; done.
  - intros n (Hs & Hb)%count_commands_spec. split_and!; [|done|].
    + destruct Hs as (c & Hc & _). by eapply lookup_lt_Some.
    + apply Forall_forall. intros c (i & Hi)%list_elem_of_lookup_1.
      apply lookup_take_Some in Hi as [Hi ?]. by eapply Hb.
Qed.

Lemma sentinel_scan_witness :
  count_commands [mkCommand (Some (lit "echo")) (Some cmdEcho);
                  mkCommand None None;
                  mkCommand (Some (lit "help")) (Some cmdHelp)] = Some 1
  ∧ 1 < 3.
Proof.
  split; [reflexivity|].
  exact (proj1 (proj2 (proj2 (sentinel_scan
           [mkCommand (Some (lit "echo")) (Some cmdEcho);
            mkCommand None None;
            mkCommand (Some (lit "help")) (Some cmdHelp)])) 1 eq_refl)).
Defined.

(** ** What the loop leaves alone *)

Lemma loop_body_keeps sh bufhead io sh' bufhead' io' :
  loop_body sh bufhead io = Some (sh', bufhead', io') →
  stream sh' = stream sh ∧ commands sh' = commands sh ∧ cmd_count sh' = cmd_count sh
  ∧ f_begin sh' = f_begin sh ∧ f_end sh' = f_end sh.
Proof.
  unfold loop_body.
  destruct (readBytes io (SHELL_LINE_MAX - bufhead)) as [bytes io1].
  destruct (memchr _ _ _ _) as [end_|].
  - case_decide; [by intros [= <- <- <-]|].
    destruct (execute_command _ _); [|done]. by intros [= <- <- <-].
  - case_decide; by intros [= <- <- <-].
Qed.

(** X13.  However many rounds the loop makes, whatever is read and whatever
    the handlers do on the port, the shell comes out with the port recorded,
    the table, [cmd_count] and the two flags as they were: the rounds write
    the two arrays only, and neither set nor clear a flag. *)
Theorem rounds_keep_flags_and_table n : ∀ sh bufhead io sh' bufhead' io',
  rounds n sh bufhead io = Some (sh', bufhead', io') →
  stream sh' = stream sh ∧ commands sh' = commands sh ∧ cmd_count sh' = cmd_count sh
  ∧ f_begin sh' = f_begin sh ∧ f_end sh' = f_end sh.
Proof.
  induction n as [|n IH]; intros sh bufhead io sh' bufhead' io'.
  - by intros [= <- <- <-].
  - rewrite rounds_unfold. destruct (f_end sh) eqn:Ee; [by intros [= <- <- <-]|].
    destruct (loop_body sh bufhead io) as [[[sh1 bufhead1] io1]|] eqn:Ebody; [|done].
    cbn [mbind option_bind]. intros Hrun.
    destruct (loop_body_keeps _ _ _ _ _ _ Ebody) as (H1 & H2 & H3 & H4 & H5).
    destruct (IH _ _ _ _ _ _ Hrun) as (G1 & G2 & G3 & G4 & G5).
    split_and!; congruence.
Qed.

Lemma rounds_keep_flags_and_table_witness :
  ∃ sh' bufhead' io',
    rounds 3 sketch_shell 0 (serial [lit "help" ++ [LF]; lit "echo a" ++ [LF]])
      = Some (sh', bufhead', io')
    ∧ f_end sh' = false ∧ cmd_count sh' = 2.
Proof.
  destruct (rounds 3 sketch_shell 0 (serial [lit "help" ++ [LF]; lit "echo a" ++ [LF]]))
    as [[[sh' bufhead'] io']|] eqn:Erun; [|by vm_compute in Erun].
  exists sh', bufhead', io'. split; [reflexivity|].
  destruct (rounds_keep_flags_and_table _ _ _ _ _ _ _ Erun) as (_ & _ & -> & _ & ->).
  split; reflexivity.
Defined.

(** ** Stopping and starting, under every schedule *)

Lemma stopping_step t w w' : stopping w → step t w = Some w' → stopping w'.
Proof.
  destruct w as [sh ps ts td c]. intros (pc & Ht & H) Hstep.
  cbn [tasks todo caller shell] in *. subst ts.
  destruct t as [|k].
  - cbn [step] in Hstep. unfold caller_step, Shell_end in Hstep.
    cbn [todo caller shell ports tasks] in Hstep.
    destruct H as [(-> & -> & Hb & He & Hpc)|[(-> & -> & H)|(-> & -> & _)]]; [| |done].
    + injection Hstep as <-. exists pc. split; [done|].
      cbn [todo caller shell f_begin f_end set_f_end]. right; left.
      split_and!; [done..|]. left. split_and!; [done..|by left].
    + destruct (f_begin sh) eqn:Eb.
      * injection Hstep as <-. exists pc. split; [done|].
        cbn [todo caller shell]. rewrite Eb. right; left. by split_and!.
      * injection Hstep as <-. exists pc. split; [done|].
        cbn [todo caller shell]. rewrite Eb. right; right.
        destruct H as [(? & _)|[(? & _)|(_ & ? & ?)]]; [done|done|by split_and!].
  - cbn [step] in Hstep. unfold task_step in Hstep. cbn [tasks] in Hstep.
    destruct k as [|k]; [|done]. cbn [lookup list_lookup mbind option_bind] in Hstep.
    unfold Shell_main in Hstep. cbn [shell ports tasks todo caller] in Hstep.
    destruct H as [(-> & -> & Hb & He & bh & ->)|[(-> & -> & H)|(-> & -> & Hb & He & Hpc)]].
    + rewrite He in Hstep.
      destruct (stream sh) as [p|]; [|done]. cbn [mbind option_bind] in Hstep.
      destruct (ps !! p) as [io|]; [|done]. cbn [mbind option_bind] in Hstep.
      destruct (loop_body sh bh io) as [[[sh1 bh1] io1]|] eqn:Ebody; [|done].
      cbn [mbind option_bind] in Hstep. injection Hstep as <-.
      destruct (loop_body_keeps _ _ _ _ _ _ Ebody) as (_ & _ & _ & Hb1 & He1).
      eexists. split; [done|]. cbn [todo caller shell]. left.
      split_and!; [done|done|congruence|congruence|by eexists].
    + destruct H as [(Hb & He & [[bh ->]| ->])|[(Hb & He & ->)|(Hb & He & [->| ->])]].
      * rewrite He in Hstep. injection Hstep as <-.
        eexists. split; [done|]. cbn [todo caller shell]. right; left.
        split_and!; [done..|]. left. split_and!; [done..|by right].
      * injection Hstep as <-. eexists. split; [done|].
        cbn [todo caller shell f_begin f_end set_f_end]. right; left.
        split_and!; [done..|]. right; left. by split_and!.
      * injection Hstep as <-. eexists. split; [done|].
        cbn [todo caller shell f_begin f_end set_f_begin]. right; left.
        split_and!; [done..|]. right; right. split_and!; [done..|by left].
      * injection Hstep as <-. eexists. split; [done|].
        cbn [todo caller shell]. right; left.
        split_and!; [done..|]. right; right. split_and!; [done..|by right].
      * done.
    + destruct Hpc as [->| ->]; [|done]. injection Hstep as <-.
      eexists. split; [done|]. cbn [todo caller shell]. right; right.
      split_and!; [done..|by right].
Qed.

Lemma stopping_run schedule : ∀ w w', stopping w → run schedule w = Some w' → stopping w'.
Proof.
  induction schedule as [|t schedule IH]; intros w w' Hw; [by intros [= <-]|].
  cbn [run]. destruct (step t w) as [w1|] eqn:Estep; [|done].
  cbn [mbind option_bind]. apply IH. by eapply stopping_step.
Qed.

(** X14.  The sketch calls [end] while the one task of the shell is in the
    loop, [f_begin] set and [f_end] clear.  Under every schedule, in every
    state in which [end] has returned both flags are clear and the task has
    made its last access to the shell (it is about to delete itself or has
    done so); and there is a schedule under which [end] returns. *)
Theorem end_returns_after_cleanup sh ps bufhead :
  f_begin sh = true → f_end sh = false →
  (∀ schedule w,
     run schedule (mkWorld sh ps [AtWhile bufhead] [CallEnd] BeforeCall) = Some w →
     todo w = [] →
     f_begin (shell w) = false ∧ f_end (shell w) = false
     ∧ (tasks w = [AtDelete] ∨ tasks w = [Deleted]))
  ∧ ∃ schedule w,
      run schedule (mkWorld sh ps [AtWhile bufhead] [CallEnd] BeforeCall) = Some w
      ∧ todo w = [].
Proof.
  intros Hb He. split.
  - intros schedule w Hrun Hdone.
    assert (stopping (mkWorld sh ps [AtWhile bufhead] [CallEnd] BeforeCall)) as Hinit.
    { exists (AtWhile bufhead). split; [done|]. left. split_and!; [done..|by eexists]. }
    destruct (stopping_run _ _ _ Hinit Hrun) as (pc & Ht & H). rewrite Ht.
    destruct H as [(? & _)|[(? & _)|(_ & _ & ? & ? & Hpc)]]; [congruence|congruence|].
    split_and!; [done..|]. destruct Hpc as [->| ->]; [by left|by right].
  - eexists [Caller; Caller; Task 0; Task 0; Task 0; Caller], _.
    split; [by apply end_while_running|done].
Qed.

Lemma end_returns_after_cleanup_witness :
  ∃ w,
    run [Caller; Task 0; Caller; Task 0; Caller; Task 0; Task 0; Caller]
        (mkWorld (set_f_begin true sketch_shell) [serial []] [AtWhile 0]
           [CallEnd] BeforeCall) = Some w
    ∧ f_begin (shell w) = false ∧ f_end (shell w) = false.
Proof.
  destruct (run [Caller; Task 0; Caller; Task 0; Caller; Task 0; Task 0; Caller]
              (mkWorld (set_f_begin true sketch_shell) [serial []] [AtWhile 0]
                 [CallEnd] BeforeCall)) as [w|] eqn:Erun; [|by vm_compute in Erun].
  exists w. split; [reflexivity|].
  destruct (proj1 (end_returns_after_cleanup (set_f_begin true sketch_shell)
                     [serial []] 0 eq_refl eq_refl) _ w Erun) as (Hb & He & _).
  - vm_compute in Erun. by injection Erun as <-.
  - by split.
Defined.

Lemma started_step p t w w' : started p w → step t w = Some w' → started p w'.
Proof.
  destruct w as [sh ps ts td c].
  intros (Hb & He & Hs & Hc & Htd & pc & Ht & Hpc) Hstep.
  cbn [tasks todo caller shell] in *. subst ts c.
  destruct t as [|k].
  - cbn [step] in Hstep. unfold caller_step in Hstep. cbn [todo] in Hstep.
    destruct td as [|[q|] td]; [done| |by apply Forall_cons in Htd as [[] _]].
    unfold Shell_begin in Hstep. cbn [caller shell ports tasks] in Hstep.
    rewrite Hb in Hstep. injection Hstep as <-.
    apply Forall_cons in Htd as [_ Htd].
    split_and!; [done..|]. by exists pc.
  - cbn [step] in Hstep. unfold task_step in Hstep. cbn [tasks] in Hstep.
    destruct k as [|k]; [|done]. cbn [lookup list_lookup mbind option_bind] in Hstep.
    unfold Shell_main in Hstep. cbn [shell ports tasks todo caller] in Hstep.
    rewrite Hs in Hstep. cbn [mbind option_bind] in Hstep.
    destruct Hpc as [->|[bh ->]].
    + destruct (ps !! p) as [io|]; [|done]. cbn [mbind option_bind] in Hstep.
      injection Hstep as <-. split_and!; [done..|].
      eexists. split; [done|]. right. by eexists.
    + rewrite He in Hstep.
      destruct (ps !! p) as [io|]; [|done]. cbn [mbind option_bind] in Hstep.
      destruct (loop_body sh bh io) as [[[sh1 bh1] io1]|] eqn:Ebody; [|done].
      cbn [mbind option_bind] in Hstep. injection Hstep as <-.
      destruct (loop_body_keeps _ _ _ _ _ _ Ebody) as (Hs1 & _ & _ & Hb1 & He1).
      split_and!; cbn [tasks todo caller shell];
        [congruence|congruence|congruence|done|done|].
      eexists. split; [done|]. right. by eexists.
Qed.

(** X15.  Once the task of the shell has stored [f_begin] and while nobody
    calls [end], calls of [begin], however many and however interleaved with
    the steps of the task, create no task and leave the port recorded as it
    is; the task stays in the loop. *)
Theorem begin_after_start_is_noop p schedule : ∀ w w',
  started p w → run schedule w = Some w' →
  length (tasks w') = 1 ∧ stream (shell w') = Some p
  ∧ f_begin (shell w') = true ∧ f_end (shell w') = false
  ∧ ∃ pc, tasks w' = [pc] ∧ (pc = AtPrompt ∨ ∃ bufhead, pc = AtWhile bufhead).
Proof.
  induction schedule as [|t schedule IH]; intros w w' Hw.
  - intros [= <-]. destruct Hw as (Hb & He & Hs & _ & _ & pc & Ht & Hpc).
    split_and!; [by rewrite Ht|done..|by exists pc].
  - cbn [run]. destruct (step t w) as [w1|] eqn:Estep; [|done].
    cbn [mbind option_bind]. apply IH. by eapply started_step.
Qed.

Lemma begin_after_start_is_noop_witness :
  lifecycle (run [Caller; Task 0; Caller; Task 0; Caller]
               (mkWorld (set_f_begin true (set_stream (Some 0) sketch_shell))
                  [serial [lit "help" ++ [LF]]; serial []] [AtPrompt]
                  [CallBegin 1; CallBegin 1; CallBegin 0] BeforeCall))
    = Some (true, false, Some 0, [AtWhile 0], [],
            [([], lit "shell> " ++ lit "help" ++ [LF]
                    ++ lit "commands: echo help" ++ [LF] ++ lit "shell> ");
             ([], [])]).
Proof.
  destruct (run [Caller; Task 0; Caller; Task 0; Caller]
              (mkWorld (set_f_begin true (set_stream (Some 0) sketch_shell))
                 [serial [lit "help" ++ [LF]]; serial []] [AtPrompt]
                 [CallBegin 1; CallBegin 1; CallBegin 0] BeforeCall))
    as [w'|] eqn:Erun; [|by vm_compute in Erun].
  assert (started 0
            (mkWorld (set_f_begin true (set_stream (Some 0) sketch_shell))
               [serial [lit "help" ++ [LF]]; serial []] [AtPrompt]
               [CallBegin 1; CallBegin 1; CallBegin 0] BeforeCall)) as Hst.
  { split_and!; [reflexivity..|repeat constructor|].
    exists AtPrompt. split; [reflexivity|by left]. }
  destruct (begin_after_start_is_noop 0 _ _ w' Hst Erun) as (Hone & _).
  vm_compute in Erun. injection Erun as <-. reflexivity.
Defined.

(** X16.  The use the header documents for changing the port: the sketch
    calls [end], then [begin] on port [p], while the one task is in the
    loop.  When the task is let run to its end before [end] looks at
    [f_begin] again, [end] returns, [begin] records [p] and creates a second
    task, and that task stores [f_begin] and prints the prompt on [p] with
    both flags as in a shell that runs. *)
Theorem end_then_begin_changes_port sh ps bufhead p io :
  f_begin sh = true → ps !! p = Some io →
  run [Caller; Task 0; Task 0; Task 0; Task 0; Caller; Caller; Caller; Caller;
       Task 1; Task 1]
      (mkWorld sh ps [AtWhile bufhead] [CallEnd; CallBegin p] BeforeCall)
    = Some (mkWorld
              (set_f_begin true
                 (set_stream (Some p)
                    (set_f_begin false (set_f_end false (set_f_end true sh)))))
              (<[p := prompt io]> ps) [Deleted; AtWhile 0] [] BeforeCall).
Proof.
  intros Hb Hp.
  cbn [run step caller_step Shell_begin Shell_end task_step Shell_main
       todo caller shell ports tasks mbind option_bind lookup list_lookup
       set_f_end set_f_begin set_stream f_begin f_end stream insert list_insert app].
  by rewrite Hp.
Qed.

Lemma end_then_begin_changes_port_witness :
  lifecycle (run [Caller; Task 0; Task 0; Task 0; Task 0; Caller; Caller; Caller;
                  Caller; Task 1; Task 1]
               (mkWorld (set_f_begin true (set_stream (Some 0) sketch_shell))
                  [serial []; serial []] [AtWhile 0] [CallEnd; CallBegin 1] BeforeCall))
    = Some (true, false, Some 1, [Deleted; AtWhile 0], [],
            [([], []); ([], lit "shell> ")]).
Proof.
  rewrite (end_then_begin_changes_port
             (set_f_begin true (set_stream (Some 0) sketch_shell))
             [serial []; serial []] 0 1 (serial []) eq_refl eq_refl).
  reflexivity.
Defined.

(** ** The length asked of a read *)

(** X17.  At every test of the loop reached from its entry the cursor is
    strictly inside the buffer: the length passed to [readBytes],
    [SHELL_LINE_MAX] less the cursor, is at least 1 and at most
    [SHELL_LINE_MAX]; the loop never asks for a read of no byte. *)
Theorem every_read_asks_for_a_byte n sh io sh1 bufhead1 io1 :
  length (input sh) = SHELL_LINE_MAX →
  rounds n sh 0 io = Some (sh1, bufhead1, io1) →
  bufhead1 < SHELL_LINE_MAX
  ∧ 1 ≤ SHELL_LINE_MAX - bufhead1 ≤ SHELL_LINE_MAX.
Proof.
  intros Hlen Hrun.
  assert (bufhead1 < SHELL_LINE_MAX); [|lia].
  assert (0 < SHELL_LINE_MAX) as Hb by (unfold SHELL_LINE_MAX; lia).
  revert Hlen Hb Hrun. generalize 0 as bufhead. revert sh io.
  induction n as [|n IH]; intros sh io bufhead Hlen Hb.
  - by intros [= <- <- <-].
  - rewrite rounds_unfold. destruct (f_end sh); [by intros [= <- <- <-]|].
    destruct (loop_body sh bufhead io) as [[[sh' bufhead'] io']|] eqn:Ebody; [|done].
    cbn [mbind option_bind]. intros Hrun.
    assert (bufhead ≤ SHELL_LINE_MAX) as Hle by lia.
    destruct (cursor_step _ _ _ _ _ _ Hlen Hle Ebody) as (_ & Hl' & Hb' & _).
    by eapply IH.
Qed.

Lemma every_read_asks_for_a_byte_witness :
  ∃ sh1 bufhead1 io1,
    rounds 3 sketch_shell 0
        (serial [replicate SHELL_LINE_MAX "a"%char; lit "he"; lit "lp" ++ LF :: lit "ec"])
      = Some (sh1, bufhead1, io1)
    ∧ bufhead1 < SHELL_LINE_MAX.
Proof.
  destruct (rounds 3 sketch_shell 0
              (serial [replicate SHELL_LINE_MAX "a"%char; lit "he";
                       lit "lp" ++ LF :: lit "ec"]))
    as [[[sh1 bufhead1] io1]|] eqn:Erun; [|by vm_compute in Erun].
  exists sh1, bufhead1, io1. split; [reflexivity|].
  exact (proj1 (every_read_asks_for_a_byte 3 sketch_shell _ sh1 bufhead1 io1 eq_refl Erun)).
Defined.
